(** * The plan State of syft/messaging/plan/state.py

    A shallow embedding of the [State] class: the objects the Python code
    shares by reference (placeholders, values, States, plans) live in an
    explicit store and are named by their address; every method is a
    computation over that store which either returns or raises.

    The classes [State] works with are outside this file. PlaceHolder,
    Plan, the worker's registry and the runtime's [clone] are modelled
    from the specification; the generic codec, the derivation of a
    copy's id and the [get_] of a value are parameters.
    [create_grad_if_missing] only calls into the numeric runtime and is
    left out. *)

From Stdlib Require Import Ascii.
From stdpp Require Import gmap strings list fin_maps pretty.

Set Warnings "-clear-no-such-hyp".

(** ** Objects *)

(** Identities ([id] attributes) are Python integers. *)
Abbreviation ident := Z (only parsing).

(** Addresses of objects in the store. An object allocated later has a
    larger address; nothing is ever freed. *)
Abbreviation ploc := nat (only parsing).  (* PlaceHolder objects *)
Abbreviation tloc := nat (only parsing).  (* values: tensors, parameters *)
Abbreviation sloc := nat (only parsing).  (* State objects *)
Abbreviation plan_ref := nat (only parsing).
Abbreviation worker := nat (only parsing).

(** A value of the numeric runtime: its identity and its storage. *)
Record Tensor := mkTensor {
  t_id : ident;
  t_data : list Z
}.

(** Modelled from the spec: the PlaceHolder class is outside this file.
    Section 3 of the specification gives it an identity, a set of string
    tags and an optional bound value ([child]; [None] when the placeholder
    is not instantiated). *)
Record PlaceHolder := mkPlaceHolder {
  ph_id : ident;
  ph_tags : gset string;
  ph_child : option tloc
}.

(** [self.owner] is a plan or a worker. *)
Inductive Owner :=
  | OwnerPlan (pl : plan_ref)
  | OwnerWorker (w : worker).

(** [State.__init__]: the two attributes of a State. Every State built in
    this file receives a sequence object of its own ([or []], [copy],
    [detail]), so the sequence is a field of the State object. *)
Record State := mkState {
  owner : Owner;
  state_placeholders : list ploc
}.

(** Modelled from the spec: the Plan class is outside this file. Section 6
    lists the four attributes [read] uses. *)
Record Plan := mkPlan {
  init_plan : option plan_ref;
  state : sloc;
  placeholders : gmap Z nat;
  var_count : Z
}.

(** ** The store *)

Record heap := mkHeap {
  hp_placeholders : list PlaceHolder;
  hp_tensors : list Tensor;
  hp_states : list State;
  hp_plans : list Plan;
  (* the workers' object registries: (worker, identity) to value *)
  hp_registry : gmap (nat * Z) nat
}.

Definition with_placeholders (f : list PlaceHolder → list PlaceHolder) (h : heap) : heap :=
  mkHeap (f (hp_placeholders h)) (hp_tensors h) (hp_states h) (hp_plans h) (hp_registry h).

Definition with_tensors (f : list Tensor → list Tensor) (h : heap) : heap :=
  mkHeap (hp_placeholders h) (f (hp_tensors h)) (hp_states h) (hp_plans h) (hp_registry h).

Definition with_states (f : list State → list State) (h : heap) : heap :=
  mkHeap (hp_placeholders h) (hp_tensors h) (f (hp_states h)) (hp_plans h) (hp_registry h).

Definition with_plans (f : list Plan → list Plan) (h : heap) : heap :=
  mkHeap (hp_placeholders h) (hp_tensors h) (hp_states h) (f (hp_plans h)) (hp_registry h).

Definition with_registry (f : gmap (nat * Z) nat → gmap (nat * Z) nat) (h : heap) : heap :=
  mkHeap (hp_placeholders h) (hp_tensors h) (hp_states h) (hp_plans h) (f (hp_registry h)).

(** ** Computations that may raise *)

Inductive exn :=
  | AttributeError        (* attribute access on None, or a missing attribute *)
  | DecodeError           (* the codec rejects a wire form *)
  | DanglingRef.          (* an address with no object: an ill-formed store *)

Inductive outcome (A : Type) :=
  | Ok (a : A) (h : heap)
  | Raise (e : exn) (h : heap).
Arguments Ok {A} a h.
Arguments Raise {A} e h.

Definition M (A : Type) : Type := heap → outcome A.

Definition ret {A} (a : A) : M A := λ h, Ok a h.
Definition raise {A} (e : exn) : M A := λ h, Raise e h.
Definition bind {A B} (m : M A) (k : A → M B) : M B :=
  λ h, match m h with
       | Ok a h' => k a h'
       | Raise e h' => Raise e h'
       end.

Global Instance M_ret : MRet M := @ret.
Global Instance M_bind : MBind M := λ A B k m, bind m k.

Definition final_heap {A} (o : outcome A) : heap :=
  match o with Ok _ h => h | Raise _ h => h end.

(** Dereference an address. *)
Definition load {A} (sel : heap → list A) (l : nat) : M A :=
  λ h, match sel h !! l with
       | Some x => Ok x h
       | None => Raise DanglingRef h
       end.

Definition modify (f : heap → heap) : M unit := λ h, Ok tt (f h).

Definition load_placeholder := load hp_placeholders.
Definition load_tensor := load hp_tensors.
Definition load_state := load hp_states.
Definition load_plan := load hp_plans.

Definition store_placeholder (p : ploc) (ph : PlaceHolder) : M unit :=
  modify (with_placeholders (λ l, <[p := ph]> l)).
Definition store_state (s : sloc) (st : State) : M unit :=
  modify (with_states (λ l, <[s := st]> l)).
Definition store_plan (pl : plan_ref) (P : Plan) : M unit :=
  modify (with_plans (λ l, <[pl := P]> l)).

Definition alloc_placeholder (ph : PlaceHolder) : M ploc :=
  λ h, Ok (length (hp_placeholders h)) (with_placeholders (λ l, l ++ [ph]) h).
Definition alloc_tensor (T : Tensor) : M tloc :=
  λ h, Ok (length (hp_tensors h)) (with_tensors (λ l, l ++ [T]) h).
Definition alloc_state (st : State) : M sloc :=
  λ h, Ok (length (hp_states h)) (with_states (λ l, l ++ [st]) h).

(** [for x in xs: body(x)] *)
Fixpoint for_each {A} (body : A → M unit) (xs : list A) : M unit :=
  match xs with
  | [] => ret tt
  | x :: xs' => body x;; for_each body xs'
  end.

(** [[f(x) for x in xs]] *)
Fixpoint for_collect {A B} (f : A → M B) (xs : list A) : M (list B) :=
  match xs with
  | [] => ret []
  | x :: xs' => y ← f x; ys ← for_collect f xs'; ret (y :: ys)
  end.

(** ** PlaceHolder methods *)

Section PlaceHolderMethods.

(** Modelled from the spec: a copy is a new PlaceHolder object with the
    "same or derived id and tags"; [copy_id] is that derivation. The
    copy is structural, so the bound value is shared, not duplicated. *)
Variable copy_id : Z → Z.

Definition PlaceHolder_copy (p : ploc) : M ploc :=
  ph ← load_placeholder p;
  alloc_placeholder (mkPlaceHolder (copy_id (ph_id ph)) (ph_tags ph) (ph_child ph)).

(** [placeholder.tags = value] *)
Definition set_tags (p : ploc) (ts : gset string) : M unit :=
  ph ← load_placeholder p;
  store_placeholder p (mkPlaceHolder (ph_id ph) ts (ph_child ph)).

(** Modelled from the spec: [tag] adds each of its arguments to the set. *)
Definition PlaceHolder_tag (p : ploc) (ts : list string) : M unit :=
  for_each (λ t, ph ← load_placeholder p;
                 store_placeholder p (mkPlaceHolder (ph_id ph) (ph_tags ph ∪ {[t]}) (ph_child ph)))
           ts.

(** Modelled from the spec: [instantiate(value)] rebinds the placeholder,
    replacing any prior binding. *)
Definition PlaceHolder_instantiate (p : ploc) (t : tloc) : M unit :=
  ph ← load_placeholder p;
  store_placeholder p (mkPlaceHolder (ph_id ph) (ph_tags ph) (Some t)).

End PlaceHolderMethods.

(** ** State methods *)

Section StateMethods.

Variable copy_id : Z → Z.

(** The worker class is outside this file: what reading [init_plan] off a
    worker yields is left open ([None]: the attribute is missing). *)
Variable worker_init_plan : nat → option (option nat).

(** [State.tensors]: the children in placeholder order; the child of a
    placeholder that is not instantiated is [None] and is appended as
    such. *)
Definition tensors (s : sloc) : M (list (option tloc)) :=
  st ← load_state s;
  for_collect (λ p, ph ← load_placeholder p; ret (ph_child ph)) (state_placeholders st).

(** [State.copy]: same owner, a new sequence with the same placeholders. *)
Definition copy (s : sloc) : M sloc :=
  st ← load_state s;
  alloc_state (mkState (owner st) (state_placeholders st)).

(** [self.owner.init_plan] *)
Definition owner_init_plan (o : Owner) : M (option plan_ref) :=
  match o with
  | OwnerPlan pl => P ← load_plan pl; ret (init_plan P)
  | OwnerWorker w =>
      match worker_init_plan w with
      | Some ip => ret ip
      | None => raise AttributeError
      end
  end.

(** The position tag [f"#{n}"]. *)
Definition position_tag (n : Z) : string := "#" +:+ pretty n.

(** One round of the promotion loop of [State.read] (lines 66 to 71). *)
Definition promote (parent : plan_ref) (p : ploc) : M unit :=
  c ← PlaceHolder_copy copy_id p;
  set_tags c ∅;;
  PP ← load_plan parent;
  PlaceHolder_tag c ["#inner"; "#state"; position_tag (var_count PP + 1)%Z];;
  (* parent_plan.state.state_placeholders.append(placeholder) *)
  PP ← load_plan parent;
  pst ← load_state (state PP);
  store_state (state PP) (mkState (owner pst) (state_placeholders pst ++ [c]));;
  (* parent_plan.placeholders[placeholder.child.id] = placeholder *)
  ph ← load_placeholder c;
  match ph_child ph with
  | None => raise AttributeError
  | Some t =>
      T ← load_tensor t;
      PP ← load_plan parent;
      store_plan parent
        (mkPlan (init_plan PP) (state PP) (<[t_id T := c]> (placeholders PP)) (var_count PP));;
      (* parent_plan.var_count += 1 *)
      PP ← load_plan parent;
      store_plan parent
        (mkPlan (init_plan PP) (state PP) (placeholders PP) (var_count PP + 1)%Z)
  end.

(** The return path of [State.read] (lines 73 to 79). *)
Definition not_inner (ph : PlaceHolder) : bool := bool_decide ("#inner" ∉ ph_tags ph).

Fixpoint read_values (ps : list ploc) : M (list (option tloc)) :=
  match ps with
  | [] => ret []
  | p :: ps' =>
      ph ← load_placeholder p;
      rest ← read_values ps';
      ret (if not_inner ph then ph_child ph :: rest else rest)
  end.

(** The promotion of [State.read] (lines 62 to 71), [ip] being the value of
    [self.owner.init_plan]. *)
Definition read_promotion (s : sloc) (st : State) (ip : option plan_ref) : M unit :=
  match ip with
  | Some parent =>
      PP ← load_plan parent;
      if bool_decide (state PP ≠ s)
      then for_each (promote parent) (state_placeholders st)
      else ret tt
  | None => ret tt
  end.

(** [State.read] *)
Definition read (s : sloc) : M (list (option tloc)) :=
  st ← load_state s;
  ip ← owner_init_plan (owner st);
  read_promotion s st ip;;
  st ← load_state s;
  read_values (state_placeholders st).

End StateMethods.

(** [State.set_] and [State.clone_state_dict] *)

(** The body of the loop of [State.set_] for one entry of the dictionary. *)
Definition set_entry (s : sloc) (entry : Z * nat) : M unit :=
  st ← load_state s;
  for_each (λ p, ph ← load_placeholder p;
                 if bool_decide (ph_id ph = entry.1)
                 then PlaceHolder_instantiate p entry.2
                 else ret tt)
           (state_placeholders st).

(** [State.set_] over the entries of the dictionary, in the order [items]
    yields them. *)
Definition set_items (s : sloc) (items : list (Z * nat)) : M unit :=
  for_each (set_entry s) items.

(** [State.set_]: a dictionary has one entry per key. *)
Definition set_ (s : sloc) (state_dict : gmap Z nat) : M unit :=
  set_items s (map_to_list state_dict).

(** Modelled from the spec: [clone] of the numeric runtime returns a value
    with storage of its own and the same content ("deep value copy, shared
    nothing with the original storage"; the docstring of
    [clone_state_dict]: "Tensor ids are kept"). *)
Definition Tensor_clone (t : tloc) : M tloc :=
  T ← load_tensor t;
  alloc_tensor T.

(** Writing into the storage of a value, as an in-place operation on a
    tensor does. *)
Definition Tensor_write (t : tloc) (data : list Z) : M unit :=
  T ← load_tensor t;
  modify (with_tensors (λ l, <[t := mkTensor (t_id T) data]> l)).

(** The dictionary comprehension of [clone_state_dict], entry by entry. *)
Fixpoint clone_entries (ps : list ploc) (d : gmap Z nat) : M (gmap Z nat) :=
  match ps with
  | [] => ret d
  | p :: ps' =>
      ph ← load_placeholder p;
      match ph_child ph with
      | None => raise AttributeError
      | Some t => c ← Tensor_clone t; clone_entries ps' (<[ph_id ph := c]> d)
      end
  end.

(** [State.clone_state_dict] *)
Definition clone_state_dict (s : sloc) : M (gmap Z nat) :=
  st ← load_state s;
  clone_entries (state_placeholders st) ∅.

(** ** Serialization *)

(** Modelled from the spec: [register_obj(obj, obj_id)] of the receiving
    worker enters the value into the worker's registry under the given
    identity. *)
Definition register_obj (w : worker) (t : tloc) (obj_id : Z) : M unit :=
  modify (with_registry (λ r, <[(w, obj_id) := t]> r)).

Section Serde.

(** The generic codec [sy.serde.msgpack.serde] is outside this file.
    [_simplify] is taken as given on the content of the two kinds of
    sequences [State] passes to it. [_detail] yields objects: it is
    taken as any computation on the store that returns the sequence of
    the detailed objects, new ones or objects the store holds already,
    or raises. A detailed value can be None, which is what [simplify]
    encodes for a placeholder that holds no value. *)
Variable wire : Type.
Variable serde_simplify_placeholders : nat → list PlaceHolder → wire.
Variable serde_simplify_values : nat → list (option Tensor) → wire.
Variable serde_detail_placeholders : nat → wire → M (list ploc).
Variable serde_detail_values : nat → wire → M (list (option tloc)).

(** The content of the elements of the list [tensors()] returns. *)
Definition load_value (o : option tloc) : M (option Tensor) :=
  match o with
  | None => ret None
  | Some t => T ← load_tensor t; ret (Some T)
  end.

(** [State.simplify] *)
Definition simplify (w : worker) (s : sloc) : M (wire * wire) :=
  st ← load_state s;
  phs ← for_collect load_placeholder (state_placeholders st);
  ts ← tensors s;
  vals ← for_collect load_value ts;
  ret (serde_simplify_placeholders w phs, serde_simplify_values w vals).

(** The first loop of [State.detail] (lines 146 and 147): the argument
    [state_element.id] is evaluated before the call, and None has no
    attribute [id]. *)
Definition register_all (w : worker) (state_elements : list (option tloc)) : M unit :=
  for_each (λ e, match e with
                 | Some t => T ← load_tensor t; register_obj w t (t_id T)
                 | None => raise AttributeError
                 end)
           state_elements.

(** Modelled from the spec: [instantiate] with an element of the value
    sequence; with the element None the placeholder is left holding no
    value. *)
Definition instantiate_element (p : ploc) (e : option tloc) : M unit :=
  match e with
  | Some t => PlaceHolder_instantiate p t
  | None => ph ← load_placeholder p;
            store_placeholder p (mkPlaceHolder (ph_id ph) (ph_tags ph) None)
  end.

(** The second loop of [State.detail] (lines 149 and 150). *)
Definition instantiate_all (state_placeholders : list ploc)
    (state_elements : list (option tloc)) : M unit :=
  for_each (λ pe : nat * option nat, instantiate_element pe.1 pe.2)
           (zip state_placeholders state_elements).

(** [State.detail] *)
Definition detail (w : worker) (state_tuple : wire * wire) : M sloc :=
  state_placeholders ← serde_detail_placeholders w state_tuple.1;
  state_elements ← serde_detail_values w state_tuple.2;
  register_all w state_elements;;
  instantiate_all state_placeholders state_elements;;
  alloc_state (mkState (OwnerWorker w) state_placeholders).

End Serde.

(** * Vocabulary of the statements *)

(** The tags a promoted copy ends with. *)
Definition promotion_tags (n : Z) : gset string :=
  {[ "#inner"; "#state"; position_tag n ]}.

(** What a placeholder of the inner State resolves to when it is
    instantiated: its content and the content of its bound value. *)
Definition resolve (h : heap) (p : nat) : option (PlaceHolder * Tensor) :=
  ph ← hp_placeholders h !! p;
  t ← ph_child ph;
  T ← hp_tensors h !! t;
  Some (ph, T).

(** The map [m] after an entry was made for each key of [ids] in turn,
    the i-th key pointing at address [n0 + i]: a later entry replaces an
    earlier one of the same key. *)
Fixpoint register_copies (m : gmap Z nat) (n0 : nat) (ids : list Z) : gmap Z nat :=
  match ids with
  | [] => m
  | k :: ids' => register_copies (<[k := n0]> m) (S n0) ids'
  end.

(** The list [read] returns: the children of the placeholders that do
    not carry the "#inner" tag. *)
Definition visible_children (phs : list PlaceHolder) : list (option nat) :=
  ph_child <$> filter (λ ph, "#inner" ∉ ph_tags ph) phs.

(** The hypotheses under which [read] promotes: reading [init_plan] off
    the owner of the State [s], a plan or a worker, yields an ancestor
    plan [parent] whose State is another object. *)
Record nested (worker_init_plan : nat → option (option nat)) (h : heap) (s : nat)
    (st : State) (parent : nat) (PP : Plan) (pst : State) : Prop := {
  nested_state : hp_states h !! s = Some st;
  nested_owner : owner_init_plan worker_init_plan (owner st) h = Ok (Some parent) h;
  nested_parent : hp_plans h !! parent = Some PP;
  nested_other : state PP ≠ s;
  nested_parent_state : hp_states h !! state PP = Some pst
}.

(** [read_frame parent sa h h']: from [h] to [h'] nothing changed but
    (a) new placeholder objects were allocated, (b) the State at [sa] had
    placeholders appended, (c) the plan [parent] had its map and counter
    updated. *)
Record read_frame (parent sa : nat) (h h' : heap) : Prop := {
  frame_placeholders : hp_placeholders h `prefix_of` hp_placeholders h';
  frame_tensors : hp_tensors h' = hp_tensors h;
  frame_registry : hp_registry h' = hp_registry h;
  frame_states : ∀ s, s ≠ sa → hp_states h' !! s = hp_states h !! s;
  frame_ancestor_state : ∀ pst, hp_states h !! sa = Some pst →
    ∃ pst', hp_states h' !! sa = Some pst' ∧ owner pst' = owner pst ∧
            state_placeholders pst `prefix_of` state_placeholders pst';
  frame_plans : ∀ pl, pl ≠ parent → hp_plans h' !! pl = hp_plans h !! pl;
  frame_parent : ∀ PP, hp_plans h !! parent = Some PP →
    ∃ PP', hp_plans h' !! parent = Some PP' ∧ init_plan PP' = init_plan PP ∧
           state PP' = state PP
}.

(** The plan and the State [read s] promotes into, if it promotes, given
    the value [ip] of [self.owner.init_plan]. *)
Definition ancestor_of (h : heap) (s : nat) (ip : option nat) : option (nat * nat) :=
  parent ← ip;
  PP ← hp_plans h !! parent;
  if bool_decide (state PP ≠ s) then Some (parent, state PP) else None.

(** A placeholder after [instantiate]. *)
Definition rebound (ph : PlaceHolder) (t : nat) : PlaceHolder :=
  mkPlaceHolder (ph_id ph) (ph_tags ph) (Some t).

(** What [set_] makes of a placeholder, given the dictionary. *)
Definition rebind (d : gmap Z nat) (ph : PlaceHolder) : PlaceHolder :=
  match d !! ph_id ph with
  | Some v => rebound ph v
  | None => ph
  end.

Section PromotionStores.

Variable copy_id : Z → Z.
Variable worker_init_plan : nat → option (option nat).

(** The store after one round of the promotion loop that runs to its
    end: the copy is a new object, appended to the ancestor's sequence
    and entered in its map, and the counter has advanced. *)
Definition promoted_heap (parent : nat) (PP : Plan) (pst : State)
    (ph : PlaceHolder) (T : Tensor) (h : heap) : heap :=
  let c := length (hp_placeholders h) in
  mkHeap
    (hp_placeholders h ++
       [mkPlaceHolder (copy_id (ph_id ph)) (promotion_tags (var_count PP + 1)) (ph_child ph)])
    (hp_tensors h)
    (<[state PP := mkState (owner pst) (state_placeholders pst ++ [c])]> (hp_states h))
    (<[parent := mkPlan (init_plan PP) (state PP) (<[t_id T := c]> (placeholders PP))
                        (var_count PP + 1)]> (hp_plans h))
    (hp_registry h).

(** The store when the round stops early: after the copy was made and
    tagged ([copied_heap]), and after it was appended
    ([appended_heap]). *)
Definition copied_heap (tags : gset string) (ph : PlaceHolder) (h : heap) : heap :=
  with_placeholders (λ l, l ++ [mkPlaceHolder (copy_id (ph_id ph)) tags (ph_child ph)]) h.

Definition appended_heap (PP : Plan) (pst : State) (ph : PlaceHolder) (h : heap) : heap :=
  with_states
    (λ l, <[state PP := mkState (owner pst)
                          (state_placeholders pst ++ [length (hp_placeholders h)])]> l)
    (copied_heap (promotion_tags (var_count PP + 1)) ph h).

(** The copies a promotion of [phs] allocates when the counter stands at
    [C]. *)
Definition copies (C : Z) (phs : list PlaceHolder) : list PlaceHolder :=
  imap (λ i ph, mkPlaceHolder (copy_id (ph_id ph))
                  (promotion_tags (C + Z.of_nat i + 1)) (ph_child ph)) phs.

(** The store after the promotion loop has run over placeholders that
    resolve to [ds]. *)
Definition promoted_all (parent : nat) (PP : Plan) (pst : State)
    (ds : list (PlaceHolder * Tensor)) (h : heap) : heap :=
  let n0 := length (hp_placeholders h) in
  mkHeap
    (hp_placeholders h ++ copies (var_count PP) ds.*1)
    (hp_tensors h)
    (<[state PP := mkState (owner pst) (state_placeholders pst ++ seq n0 (length ds))]>
       (hp_states h))
    (<[parent := mkPlan (init_plan PP) (state PP)
                   (register_copies (placeholders PP) n0 (t_id <$> ds.*2))
                   (var_count PP + Z.of_nat (length ds))]> (hp_plans h))
    (hp_registry h).

(** The same, from the State alone. *)
Definition ancestor (h : heap) (s : nat) : option (nat * nat) :=
  st ← hp_states h !! s;
  ip ← match owner st with
       | OwnerPlan pl => init_plan <$> hp_plans h !! pl
       | OwnerWorker w => worker_init_plan w
       end;
  ancestor_of h s ip.

(** [n] successive calls of [read] on the same State. *)
Fixpoint read_n (n : nat) (s : nat) : M unit :=
  match n with
  | 0 => mret tt
  | S n' => read copy_id worker_init_plan s;; read_n n' s
  end.

End PromotionStores.

(** The sequence of detailed values that starts with the objects [objs]
    (address and content) and goes on with nothing ([stop = None]) or
    with an element None and the elements [rest] ([stop = Some rest]):
    every sequence of values is of this form, in one way. *)
Definition elements (objs : list (nat * Tensor)) (stop : option (list (option nat)))
  : list (option nat) :=
  (Some <$> objs.*1) ++ match stop with None => [] | Some rest => None :: rest end.

(** The registry after the first loop of [detail] has registered the
    objects [objs] for worker [w], in turn: a later entry replaces an
    earlier one of the same identity. *)
Fixpoint register_values (w : nat) (r : gmap (nat * Z) nat) (objs : list (nat * Tensor))
  : gmap (nat * Z) nat :=
  match objs with
  | [] => r
  | o :: objs' => register_values w (<[(w, t_id o.2) := o.1]> r) objs'
  end.

(** The placeholder objects after the second loop of [detail] has bound
    the pairs [pairs] (placeholder and value), in turn: a later pair
    with the same placeholder object replaces the binding of an earlier
    one. *)
Fixpoint bind_positional (l : list PlaceHolder) (pairs : list (nat * nat))
  : list PlaceHolder :=
  match pairs with
  | [] => l
  | pt :: pairs' =>
      bind_positional (match l !! pt.1 with
                       | Some ph => <[pt.1 := rebound ph pt.2]> l
                       | None => l
                       end) pairs'
  end.

(** The stores [detail] goes through once the codec has returned: after
    the first loop, after the second loop, and at the end. *)
Definition registered_heap (w : nat) (objs : list (nat * Tensor)) (h : heap) : heap :=
  with_registry (λ r, register_values w r objs) h.

Definition bound_heap (w : nat) (ps : list nat) (objs : list (nat * Tensor)) (h : heap)
  : heap :=
  with_placeholders (λ l, bind_positional l (zip ps objs.*1)) (registered_heap w objs h).

Definition detailed_heap (w : nat) (ps : list nat) (objs : list (nat * Tensor)) (h : heap)
  : heap :=
  with_states (λ l, l ++ [mkState (OwnerWorker w) ps]) (bound_heap w ps objs h).

(** The values at [objs] are in the store. *)
Definition located (h : heap) (objs : list (nat * Tensor)) : Prop :=
  Forall (λ o, hp_tensors h !! o.1 = Some o.2) objs.

(** Every object of [objs] is in the registry [r] of worker [w] under
    its own identity; the entry of an identity is the object that comes
    last under it in [objs]. *)
Definition registered (w : nat) (objs : list (nat * Tensor)) (r : gmap (nat * Z) nat)
  : Prop :=
  ∀ i o, objs !! i = Some o →
    ∃ j o', i ≤ j ∧ objs !! j = Some o' ∧ t_id o'.2 = t_id o.2 ∧
            r !! (w, t_id o.2) = Some o'.1 ∧
            ((∀ j' o'', objs !! j' = Some o'' → i < j' → t_id o''.2 ≠ t_id o.2) → j = i).


(** ** Concrete stores *)

(** An inner State (address 0, owned by plan 0) nested in plan 1, whose
    State is at address 1 and whose counter stands at 5. The single
    placeholder of the inner State is not instantiated. *)
Definition h_unbound : heap :=
  mkHeap [mkPlaceHolder 10 ∅ None] []
         [mkState (OwnerPlan 0) [0]; mkState (OwnerPlan 1) []]
         [mkPlan (Some 1) 0 ∅ 0; mkPlan None 1 ∅ 5] ∅.

(** The same, with the placeholder bound to a value of identity 7. *)
Definition h_bound : heap :=
  mkHeap [mkPlaceHolder 10 ∅ (Some 0)] [mkTensor 7 [1; 2]%Z]
         [mkState (OwnerPlan 0) [0]; mkState (OwnerPlan 1) []]
         [mkPlan (Some 1) 0 ∅ 0; mkPlan None 1 ∅ 5] ∅.

(** The store of [h_bound] with the inner State owned by a worker, and
    the [init_plan] every worker is read to have there: plan 1. *)
Definition h_worker : heap :=
  mkHeap [mkPlaceHolder 10 ∅ (Some 0)] [mkTensor 7 [1; 2]%Z]
         [mkState (OwnerWorker 0) [0]; mkState (OwnerPlan 1) []]
         [mkPlan (Some 1) 0 ∅ 0; mkPlan None 1 ∅ 5] ∅.

Definition init_plan_1 (w : nat) : option (option nat) := Some (Some 1).

(** A State (address 0, owned by a worker) with the placeholders [a]
    (id 10, bound to the value at 0) and [b] (id 11, bound to the value at
    1); the values at 2 and 3 are bound to no placeholder. *)
Definition h_ab : heap :=
  mkHeap [mkPlaceHolder 10 ∅ (Some 0); mkPlaceHolder 11 ∅ (Some 1)]
         [mkTensor 7 [1]%Z; mkTensor 8 [2]%Z; mkTensor 9 [3]%Z; mkTensor 12 [4]%Z]
         [mkState (OwnerWorker 0) [0; 1]] [] ∅.

(** A codec for the examples: the wire form of a sequence is the sequence
    itself, and detailing makes a new object for every element that is
    not None. *)
Definition toy_wire : Type := list PlaceHolder + list (option Tensor).

Definition toy_simplify_placeholders (w : nat) (phs : list PlaceHolder) : toy_wire :=
  inl phs.

Definition toy_simplify_values (w : nat) (vals : list (option Tensor)) : toy_wire :=
  inr vals.

Definition alloc_value (o : option Tensor) : M (option nat) :=
  match o with
  | Some T => t ← alloc_tensor T; ret (Some t)
  | None => ret None
  end.

Definition toy_detail_placeholders (w : nat) (x : toy_wire) : M (list nat) :=
  match x with
  | inl phs => for_collect alloc_placeholder phs
  | inr _ => raise DecodeError
  end.

Definition toy_detail_values (w : nat) (x : toy_wire) : M (list (option nat)) :=
  match x with
  | inl _ => raise DecodeError
  | inr vals => for_collect alloc_value vals
  end.

Definition toy_detail : nat → toy_wire * toy_wire → M nat :=
  detail toy_wire toy_detail_placeholders toy_detail_values.

Definition toy_simplify : nat → nat → M (toy_wire * toy_wire) :=
  simplify toy_wire toy_simplify_placeholders toy_simplify_values.





(** The store of a receiving worker before anything arrived. *)
Definition h_empty : heap := mkHeap [] [] [] [] ∅.

(** ** [State.get_] *)

Section GetMethod.

(** [get_] of a value belongs to the tensor classes, outside this file:
    it is taken as any computation on the store. *)
Variable Tensor_get_ : tloc → M unit.

(** [tensor.get_()] on an element of the list [tensors()] returns: on
    None the attribute lookup fails. *)
Definition value_get_ (o : option tloc) : M unit :=
  match o with
  | Some t => Tensor_get_ t
  | None => raise AttributeError
  end.

(** [State.get_]: the list is built by [tensors] before the loop
    starts. *)
Definition get_ (s : sloc) : M unit :=
  ts ← tensors s;
  for_each value_get_ ts.

End GetMethod.

(** ** Vocabulary of the further properties *)

(** The placeholder objects after [set_] with dictionary [d] on a State
    whose sequence is [ps]. *)
Definition rebind_all (d : gmap Z nat) (ps : list nat) (l : list PlaceHolder)
  : list PlaceHolder :=
  imap (λ p ph, if decide (p ∈ ps) then rebind d ph else ph) l.

(** An inner State (address 0) with a bound placeholder followed by one
    that is not instantiated, nested in plan 1; the State of plan 1
    (address 1) has a placeholder of its own. *)
Definition h_mixed : heap :=
  mkHeap [mkPlaceHolder 10 ∅ (Some 0); mkPlaceHolder 11 ∅ None; mkPlaceHolder 12 ∅ (Some 1)]
         [mkTensor 7 [1]%Z; mkTensor 8 [2]%Z]
         [mkState (OwnerPlan 0) [0; 1]; mkState (OwnerPlan 1) [2]]
         [mkPlan (Some 1) 0 ∅ 0; mkPlan None 1 ∅ 5] ∅.

(** The same with one bound inner placeholder only. *)
Definition h_outer : heap :=
  mkHeap [mkPlaceHolder 10 ∅ (Some 0); mkPlaceHolder 12 ∅ (Some 1)]
         [mkTensor 7 [1]%Z; mkTensor 8 [2]%Z]
         [mkState (OwnerPlan 0) [0]; mkState (OwnerPlan 1) [1]]
         [mkPlan (Some 1) 0 ∅ 0; mkPlan None 1 ∅ 5] ∅.

(** A State whose two placeholders carry the same id. *)
Definition h_dup : heap :=
  mkHeap [mkPlaceHolder 10 ∅ (Some 0); mkPlaceHolder 10 ∅ (Some 1)]
         [mkTensor 7 [1]%Z; mkTensor 8 [2]%Z]
         [mkState (OwnerWorker 0) [0; 1]] [] ∅.

(** The content of the child of a placeholder, [None] when it holds no
    value. *)
Definition child_value (h : heap) (ph : PlaceHolder) : option Tensor :=
  t ← ph_child ph; hp_tensors h !! t.

(** A State (address 0) whose second placeholder holds no value. *)
Definition h_half : heap :=
  mkHeap [mkPlaceHolder 10 ∅ (Some 0); mkPlaceHolder 11 ∅ None]
         [mkTensor 7 [1]%Z]
         [mkState (OwnerWorker 0) [0; 1]] [] ∅.

(** * Properties *)

(** ** Running computations *)

Lemma bind_run {A B} (m : M A) (k : A → M B) (h : heap) :
  (m ≫= k) h = match m h with Ok a h' => k a h' | Raise e h' => Raise e h' end.
Proof. reflexivity. Qed.

Lemma load_run {A} (sel : heap → list A) (l : nat) (h : heap) :
  load sel l h = match sel h !! l with Some x => Ok x h | None => Raise DanglingRef h end.
Proof. reflexivity. Qed.

Lemma lookup_snoc_new {A} (l : list A) (x : A) : (l ++ [x]) !! length l = Some x.
Proof. by rewrite list_lookup_middle. Qed.

Lemma insert_snoc_new {A} (l : list A) (x y : A) : <[length l := y]> (l ++ [x]) = l ++ [y].
Proof.
  replace (length l) with (length l + 0)%nat by lia.
  by rewrite insert_app_r.
Qed.

Lemma insert_middle {A} (l1 l2 : list A) (x y : A) :
  <[length l1 := y]> (l1 ++ x :: l2) = l1 ++ y :: l2.
Proof. rewrite insert_app_r_alt by lia. by rewrite Nat.sub_diag. Qed.

Ltac mrun :=
  repeat first
    [ rewrite bind_run
    | rewrite load_run
    | rewrite lookup_snoc_new
    | rewrite insert_snoc_new
    | rewrite list_insert_insert_eq
    | rewrite list_lookup_insert_eq by (by eapply lookup_lt_Some)
    | match goal with H : ?l !! ?i = _ |- context [?l !! ?i] => rewrite H end
    | progress unfold with_placeholders, with_tensors, with_states, with_plans, with_registry,
        raise, modify
    | progress cbn [with_placeholders with_tensors with_states with_plans with_registry
                    hp_placeholders hp_tensors hp_states hp_plans hp_registry
                    ph_id ph_tags ph_child init_plan state placeholders var_count
                    owner state_placeholders t_id t_data
                    modify ret raise mret M_ret mbind M_bind bind ] ].

Lemma final_heap_bind_pure {A B} (m : M A) (k : A → M B) (h : heap) :
  (∀ a h1, final_heap (k a h1) = h1) →
  final_heap ((m ≫= k) h) = final_heap (m h).
Proof. intros Hk. rewrite bind_run. destruct (m h); simpl; [apply Hk|done]. Qed.

Lemma for_each_app {A} (body : A → M unit) (xs ys : list A) (h : heap) :
  for_each body (xs ++ ys) h =
  match for_each body xs h with
  | Ok _ h1 => for_each body ys h1
  | Raise e h1 => Raise e h1
  end.
Proof.
  revert h. induction xs as [|x xs IH]; intros h; [done|].
  cbn [app for_each]. rewrite !bind_run.
  destruct (body x h) as [[] h1|e h1]; [apply IH|done].
Qed.

Lemma with_placeholders_id h : with_placeholders (λ _, hp_placeholders h) h = h.
Proof. by destruct h. Qed.

Lemma instantiate_run p t h :
  PlaceHolder_instantiate p t h =
  match hp_placeholders h !! p with
  | Some ph => Ok tt (with_placeholders (λ l, <[p := rebound ph t]> l) h)
  | None => Raise DanglingRef h
  end.
Proof.
  unfold PlaceHolder_instantiate, load_placeholder, store_placeholder.
  rewrite bind_run, load_run. by destruct (hp_placeholders h !! p).
Qed.

Lemma tensors_run (ps : list nat) (phs : list PlaceHolder) (h : heap) :
  Forall2 (λ p ph, hp_placeholders h !! p = Some ph) ps phs →
  for_collect (λ p, ph ← load_placeholder p; mret (ph_child ph)) ps h
  = Ok (ph_child <$> phs) h.
Proof.
  induction 1 as [|p ph ps phs Hp _ IH]; [done|].
  cbn [for_collect]. rewrite !bind_run. unfold load_placeholder at 1.
  rewrite load_run, Hp. cbn [mret M_ret ret]. by rewrite bind_run, IH.
Qed.

Lemma promotion_tags_built (n : Z) :
  (∅ ∪ {["#inner"]} ∪ {["#state"]} ∪ {[position_tag n]} : gset string) = promotion_tags n.
Proof. unfold promotion_tags. set_solver. Qed.

(** ** The position tag *)

Lemma pretty_N_go_head (c : ascii) (x : N) (s s' : string) :
  (∀ d, pretty_N_char d ≠ c) →
  s ≠ String c s' → pretty_N_go x s ≠ String c s'.
Proof.
  intros Hc. revert s. induction (N.lt_wf_0 x) as [x _ IH]; intros s Hs.
  assert (x = 0 ∨ 0 < x)%N as [->|Hpos] by lia.
  - by rewrite pretty_N_go_0.
  - rewrite pretty_N_go_step by done. apply IH.
    + by apply N.div_lt.
    + intros [= Hd _]. by apply Hc in Hd.
Qed.

Lemma pretty_Z_head (c : ascii) (n : Z) (s' : string) :
  (∀ d, pretty_N_char d ≠ c) → c ≠ "0"%char → c ≠ "-"%char →
  pretty n ≠ String c s'.
Proof.
  intros Hc H0 Hdash. destruct n as [|p|p]; unfold pretty, pretty_Z.
  - intros [= ?]. by apply H0.
  - unfold pretty, pretty_positive, pretty, pretty_N.
    destruct (decide (N.pos p = 0%N)); [done|]. by apply pretty_N_go_head.
  - intros [= ? _]. by apply Hdash.
Qed.

Lemma position_tag_not_inner (n : Z) : position_tag n ≠ "#inner".
Proof.
  unfold position_tag. intros [= H]. revert H. apply pretty_Z_head; [|done..].
  intros d. unfold pretty_N_char. by repeat case_match.
Qed.

Lemma position_tag_not_state (n : Z) : position_tag n ≠ "#state".
Proof.
  unfold position_tag. intros [= H]. revert H. apply pretty_Z_head; [|done..].
  intros d. unfold pretty_N_char. by repeat case_match.
Qed.

Lemma promotion_tags_size (n : Z) : size (promotion_tags n) = 3.
Proof.
  pose proof (position_tag_not_inner n). pose proof (position_tag_not_state n).
  unfold promotion_tags.
  rewrite !size_union, !size_singleton by set_solver. done.
Qed.

(** ** Resolving placeholders *)

Lemma resolve_Some h p ph T :
  resolve h p = Some (ph, T) ↔
  hp_placeholders h !! p = Some ph ∧ ∃ t, ph_child ph = Some t ∧ hp_tensors h !! t = Some T.
Proof.
  unfold resolve. split.
  - intros H. destruct (hp_placeholders h !! p) as [ph'|]; simplify_eq/=.
    destruct (ph_child ph') as [t|] eqn:Hc; simplify_eq/=.
    destruct (hp_tensors h !! t) as [T'|] eqn:Ht; simplify_eq/=. eauto.
  - intros [Hp (t & Hc & Ht)]. rewrite Hp. simpl. rewrite Hc. simpl. by rewrite Ht.
Qed.

Lemma resolve_mono h h' p d :
  hp_placeholders h `prefix_of` hp_placeholders h' →
  hp_tensors h' = hp_tensors h →
  resolve h p = Some d → resolve h' p = Some d.
Proof.
  intros Hpre Ht. destruct d as [ph T]. rewrite !resolve_Some, Ht.
  intros [Hp ?]. split; [|done]. by eapply prefix_lookup_Some.
Qed.

Lemma resolve_grow h h' p d :
  hp_placeholders h' = hp_placeholders h →
  (∀ t T, hp_tensors h !! t = Some T → hp_tensors h' !! t = Some T) →
  resolve h p = Some d → resolve h' p = Some d.
Proof.
  intros Hp Ht. destruct d as [ph T]. rewrite !resolve_Some, Hp.
  intros [? (t & ? & ?)]. eauto 6.
Qed.

Lemma resolve_placeholders h ps ds :
  Forall2 (λ p d, resolve h p = Some d) ps ds →
  Forall2 (λ p ph, hp_placeholders h !! p = Some ph) ps ds.*1.
Proof.
  induction 1 as [|p [ph T] ps ds Hp _ IH]; simpl; constructor; [|done].
  by apply resolve_Some in Hp as [? _].
Qed.

Lemma valid_same_length (l l' : list PlaceHolder) (ps : list nat) :
  length l' = length l →
  Forall (λ p, is_Some (l !! p)) ps → Forall (λ p, is_Some (l' !! p)) ps.
Proof.
  intros Hlen Hv. eapply Forall_impl; [exact Hv|]. intros p Hp. simpl in *.
  apply lookup_lt_is_Some. rewrite Hlen. by apply lookup_lt_is_Some.
Qed.

Lemma read_values_ok (ps : list nat) (phs : list PlaceHolder) (h : heap) :
  Forall2 (λ p ph, hp_placeholders h !! p = Some ph) ps phs →
  read_values ps h = Ok (visible_children phs) h.
Proof.
  induction 1 as [|p ph ps phs Hp _ IH]; [done|].
  simpl. unfold load_placeholder. mrun. rewrite IH.
  unfold visible_children, not_inner. rewrite filter_cons.
  destruct (decide ("#inner" ∉ ph_tags ph)) as [Hin|Hin].
  - by rewrite bool_decide_eq_true_2.
  - by rewrite bool_decide_eq_false_2.
Qed.

Lemma read_values_heap ps h : final_heap (read_values ps h) = h.
Proof.
  induction ps as [|p ps IH]; [done|].
  simpl. unfold load_placeholder. rewrite bind_run, load_run.
  destruct (hp_placeholders h !! p); [|done].
  rewrite bind_run.
  destruct (read_values ps h); simpl in *; by subst.
Qed.

(** ** The entries of a map built by successive insertions *)

Lemma register_copies_dom m n0 ids :
  dom (register_copies m n0 ids) = dom m ∪ list_to_set ids.
Proof.
  revert m n0. induction ids as [|k ids IH]; intros m n0; simpl.
  - set_solver.
  - rewrite IH, dom_insert_L. set_solver.
Qed.

Lemma register_copies_notin m n0 ids k :
  k ∉ ids → register_copies m n0 ids !! k = m !! k.
Proof.
  revert m n0. induction ids as [|k' ids IH]; intros m n0 Hk; simpl; [done|].
  apply not_elem_of_cons in Hk as [Hne Hk].
  rewrite IH by done. by rewrite lookup_insert_ne.
Qed.

Lemma register_copies_lookup m n0 ids i k :
  NoDup ids → ids !! i = Some k → register_copies m n0 ids !! k = Some (n0 + i).
Proof.
  revert m n0 i. induction ids as [|k' ids IH]; intros m n0 i Hnd Hi; [done|].
  apply NoDup_cons in Hnd as [Hk' Hnd]. destruct i as [|i]; simpl in *.
  - simplify_eq. rewrite register_copies_notin by done.
    rewrite lookup_insert_eq. f_equal. lia.
  - rewrite (IH _ _ i) by done. f_equal. lia.
Qed.

(** ** The frame of [read] *)

Lemma read_frame_refl parent sa h : read_frame parent sa h h.
Proof. split; eauto. Qed.

Lemma read_frame_trans parent sa h1 h2 h3 :
  read_frame parent sa h1 h2 → read_frame parent sa h2 h3 → read_frame parent sa h1 h3.
Proof.
  intros [A1 A2 A3 A4 A5 A6 A7] [B1 B2 B3 B4 B5 B6 B7]. split.
  - by etrans.
  - congruence.
  - congruence.
  - intros s Hs. rewrite B4, A4; done.
  - intros pst Hpst. destruct (A5 _ Hpst) as (pst2 & H2 & Ho2 & Hp2).
    destruct (B5 _ H2) as (pst3 & H3 & Ho3 & Hp3).
    exists pst3. split; [done|]. split; [congruence|by etrans].
  - intros pl Hpl. rewrite B6, A6; done.
  - intros PP HPP. destruct (A7 _ HPP) as (PP2 & H2 & Hi2 & Hs2).
    destruct (B7 _ H2) as (PP3 & H3 & Hi3 & Hs3).
    exists PP3. split; [done|]. split; congruence.
Qed.

(** ** [read] *)

Section ReadFacts.

Variable copy_id : Z → Z.
Variable worker_init_plan : nat → option (option nat).

(** [promote], case by case. *)
Lemma promote_run (parent : nat) (p : nat) (h : heap) :
  promote copy_id parent p h =
  match hp_placeholders h !! p with
  | None => Raise DanglingRef h
  | Some ph =>
      match hp_plans h !! parent with
      | None => Raise DanglingRef (copied_heap copy_id ∅ ph h)
      | Some PP =>
          match hp_states h !! state PP with
          | None => Raise DanglingRef (copied_heap copy_id (promotion_tags (var_count PP + 1)) ph h)
          | Some pst =>
              match ph_child ph with
              | None => Raise AttributeError (appended_heap copy_id PP pst ph h)
              | Some t =>
                  match hp_tensors h !! t with
                  | None => Raise DanglingRef (appended_heap copy_id PP pst ph h)
                  | Some T => Ok tt (promoted_heap copy_id parent PP pst ph T h)
                  end
              end
          end
      end
  end.
Proof.
  unfold promote, PlaceHolder_copy, set_tags, PlaceHolder_tag, for_each.
  unfold load_placeholder, load_plan, load_state, load_tensor.
  unfold store_placeholder, store_state, store_plan, alloc_placeholder.
  unfold appended_heap, promoted_heap, copied_heap.
  mrun.
  destruct (hp_placeholders h !! p) as [ph|] eqn:Hp; [|by mrun].
  mrun.
  destruct (hp_plans h !! parent) as [PP|] eqn:Hplan; [|by mrun].
  mrun. rewrite promotion_tags_built.
  destruct (hp_states h !! state PP) as [pst|] eqn:Hst; [|by mrun].
  mrun.
  destruct (ph_child ph) as [t|] eqn:Hchild; [|by mrun].
  mrun.
  destruct (hp_tensors h !! t) as [T|] eqn:Ht; [|by mrun].
  by mrun.
Qed.

Lemma promoted_all_nil parent PP pst h :
  hp_plans h !! parent = Some PP →
  hp_states h !! state PP = Some pst →
  promoted_all copy_id parent PP pst [] h = h.
Proof.
  intros HPP Hpst. unfold promoted_all, copies. simpl.
  rewrite !app_nil_r, Z.add_0_r.
  destruct PP, pst, h; simpl in *.
  by rewrite !list_insert_id.
Qed.

Lemma copies_cons (C : Z) ph phs :
  copies copy_id C (ph :: phs) =
  mkPlaceHolder (copy_id (ph_id ph)) (promotion_tags (C + 1)) (ph_child ph)
    :: copies copy_id (C + 1) phs.
Proof.
  unfold copies. rewrite imap_cons. simpl. rewrite Z.add_0_r. f_equal.
  apply imap_ext. intros i x _. simpl. do 2 f_equal. lia.
Qed.

Lemma promoted_all_cons parent PP pst ph T ds h :
  hp_plans h !! parent = Some PP →
  hp_states h !! state PP = Some pst →
  promoted_all copy_id parent
    (mkPlan (init_plan PP) (state PP)
       (<[t_id T := length (hp_placeholders h)]> (placeholders PP)) (var_count PP + 1))
    (mkState (owner pst) (state_placeholders pst ++ [length (hp_placeholders h)]))
    ds (promoted_heap copy_id parent PP pst ph T h)
  = promoted_all copy_id parent PP pst ((ph, T) :: ds) h.
Proof.
  intros HPP Hpst. unfold promoted_all, promoted_heap. simpl.
  rewrite copies_cons, !list_insert_insert_eq, length_app. simpl.
  rewrite <- !app_assoc. simpl.
  replace (length (hp_placeholders h) + 1) with (S (length (hp_placeholders h))) by lia.
  do 3 f_equal. lia.
Qed.

Lemma promote_all_ok (parent : nat) (ps : list nat) :
  ∀ (ds : list (PlaceHolder * Tensor)) (h : heap) (PP : Plan) (pst : State),
    Forall2 (λ p d, resolve h p = Some d) ps ds →
    hp_plans h !! parent = Some PP →
    hp_states h !! state PP = Some pst →
    for_each (promote copy_id parent) ps h = Ok tt (promoted_all copy_id parent PP pst ds h).
Proof.
  induction ps as [|p ps IH]; intros ds h PP pst Hres HPP Hpst.
  - apply Forall2_nil_inv_l in Hres as ->. simpl.
    by rewrite (promoted_all_nil _ _ _ _ HPP Hpst).
  - apply Forall2_cons_inv_l in Hres as ([ph T] & ds' & Hp & Hres & ->).
    apply resolve_Some in Hp as (Hp & t & Hc & Ht).
    simpl. rewrite bind_run, promote_run, Hp, HPP, Hpst, Hc, Ht.
    rewrite <- (promoted_all_cons _ _ _ ph T _ _ HPP Hpst).
    apply IH.
    + eapply Forall2_impl; [exact Hres|]. intros q d.
      apply resolve_mono; [by apply prefix_app_r|done].
    + simpl. apply list_lookup_insert_eq. by eapply lookup_lt_Some.
    + simpl. apply list_lookup_insert_eq. by eapply lookup_lt_Some.
Qed.

Lemma read_promote_ok s h st parent PP pst ds :
  nested worker_init_plan h s st parent PP pst →
  Forall2 (λ p d, resolve h p = Some d) (state_placeholders st) ds →
  read copy_id worker_init_plan s h
  = Ok (visible_children ds.*1) (promoted_all copy_id parent PP pst ds h).
Proof.
  intros [Hs Hown HPP Hne Hpst] Hres.
  unfold read, read_promotion, load_state, load_plan. mrun.
  rewrite Hown. mrun.
  rewrite bool_decide_eq_true_2 by done.
  rewrite (promote_all_ok _ _ _ _ _ _ Hres HPP Hpst).
  unfold promoted_all at 1 2. mrun.
  rewrite list_lookup_insert_ne by done. rewrite Hs.
  fold (promoted_all copy_id parent PP pst ds h).
  apply read_values_ok.
  eapply Forall2_impl; [by apply resolve_placeholders|].
  intros p ph Hp. simpl. by apply lookup_app_l_Some.
Qed.

(** Claim C1, with the condition the code needs: when [read] runs on a
    State whose owner, a plan or a worker, has [init_plan] set to an
    ancestor plan whose State is another object, and every placeholder
    of the inner State holds a bound value, the call returns; afterwards the ancestor's counter has advanced from C to
    C+K, K copies have been appended to the ancestor's sequence in the
    inner State's order, the i-th copy (counting from 1) carries exactly
    the three tags "#inner", "#state" and "#" followed by C+i, and every
    placeholder object that existed before the call is unchanged. *)
Theorem read_promotes s h st parent PP pst ds :
  nested worker_init_plan h s st parent PP pst →
  Forall2 (λ p d, resolve h p = Some d) (state_placeholders st) ds →
  ∃ vs h' PP' pst' new,
    read copy_id worker_init_plan s h = Ok vs h' ∧
    hp_plans h' !! parent = Some PP' ∧
    state PP' = state PP ∧
    var_count PP' = (var_count PP + Z.of_nat (length (state_placeholders st)))%Z ∧
    hp_states h' !! state PP = Some pst' ∧
    state_placeholders pst' = state_placeholders pst ++ new ∧
    length new = length (state_placeholders st) ∧
    (∀ i d, ds !! i = Some d →
       ∃ c tags,
         new !! i = Some c ∧
         hp_placeholders h' !! c
           = Some (mkPlaceHolder (copy_id (ph_id d.1)) tags (ph_child d.1)) ∧
         tags = {[ "#inner"; "#state"; position_tag (var_count PP + Z.of_nat (i + 1)) ]} ∧
         size tags = 3) ∧
    (∀ p ph, hp_placeholders h !! p = Some ph → hp_placeholders h' !! p = Some ph).
Proof.
  intros Hn Hres.
  pose proof Hres as Hlen. apply Forall2_length in Hlen.
  destruct (Hn) as [Hs _ HPP Hne Hpst].
  eexists _, _, _, _, (seq (length (hp_placeholders h)) (length ds)).
  split; [exact (read_promote_ok _ _ _ _ _ _ _ Hn Hres)|].
  unfold promoted_all; simpl.
  split; [apply list_lookup_insert_eq; by eapply lookup_lt_Some|].
  split; [done|]. split; [simpl; by rewrite Hlen|].
  split; [apply list_lookup_insert_eq; by eapply lookup_lt_Some|].
  split; [done|]. split; [by rewrite length_seq|].
  split.
  - intros i [ph T] Hd.
    exists (length (hp_placeholders h) + i),
           (promotion_tags (var_count PP + Z.of_nat (i + 1))).
    split; [apply lookup_seq_lt; by eapply lookup_lt_Some|].
    split; [|split; [done|apply promotion_tags_size]].
    rewrite lookup_app_r by lia.
    replace (length (hp_placeholders h) + i - length (hp_placeholders h)) with i by lia.
    unfold copies. rewrite list_lookup_imap, list_lookup_fmap, Hd. simpl.
    by replace (var_count PP + Z.of_nat (i + 1))%Z with (var_count PP + Z.of_nat i + 1)%Z by lia.
  - intros p ph Hp. by apply lookup_app_l_Some.
Qed.

(** ** What [read] leaves alone *)

Lemma promote_frame parent p h PP :
  hp_plans h !! parent = Some PP →
  read_frame parent (state PP) h (final_heap (promote copy_id parent p h)).
Proof.
  intros HPP. rewrite promote_run, HPP.
  destruct (hp_placeholders h !! p) as [ph|]; [|apply read_frame_refl].
  assert (∀ tags, read_frame parent (state PP) h (copied_heap copy_id tags ph h)) as Hcopied.
  { intros tags. split; simpl; eauto. by apply prefix_app_r. }
  destruct (hp_states h !! state PP) as [pst|] eqn:Hpst; [|apply Hcopied].
  assert (read_frame parent (state PP) h (appended_heap copy_id PP pst ph h)) as Happended.
  { split; simpl; eauto.
    - by apply prefix_app_r.
    - intros s Hs. by rewrite list_lookup_insert_ne.
    - intros pst0 Hpst0. simplify_eq. eexists. split.
      + apply list_lookup_insert_eq. by eapply lookup_lt_Some.
      + split; [done|]. simpl. by apply prefix_app_r. }
  destruct (ph_child ph) as [t|]; [|apply Happended].
  destruct (hp_tensors h !! t) as [T|]; [|apply Happended].
  simpl. split; simpl; eauto.
  - by apply prefix_app_r.
  - intros s Hs. by rewrite list_lookup_insert_ne.
  - intros pst0 Hpst0. simplify_eq. eexists. split.
    + apply list_lookup_insert_eq. by eapply lookup_lt_Some.
    + split; [done|]. simpl. by apply prefix_app_r.
  - intros pl Hpl. by rewrite list_lookup_insert_ne.
  - intros PP0 HPP0. simplify_eq. eexists. split.
    + apply list_lookup_insert_eq. by eapply lookup_lt_Some.
    + done.
Qed.

Lemma promote_all_frame parent ps :
  ∀ h PP, hp_plans h !! parent = Some PP →
          read_frame parent (state PP) h (final_heap (for_each (promote copy_id parent) ps h)).
Proof.
  induction ps as [|p ps IH]; intros h PP HPP; [apply read_frame_refl|].
  simpl. rewrite bind_run.
  pose proof (promote_frame parent p h PP HPP) as Hstep.
  destruct (promote copy_id parent p h) as [[] h1|e h1]; simpl in *; [|done].
  destruct (frame_parent _ _ _ _ Hstep _ HPP) as (PP1 & HPP1 & _ & Hst1).
  eapply read_frame_trans; [exact Hstep|].
  rewrite <- Hst1. by apply IH.
Qed.

Lemma read_promotion_frame s st ip h :
  match ancestor_of h s ip with
  | Some (parent, sa) =>
      sa ≠ s ∧ read_frame parent sa h (final_heap (read_promotion copy_id s st ip h))
  | None => final_heap (read_promotion copy_id s st ip h) = h
  end.
Proof.
  unfold ancestor_of, read_promotion. destruct ip as [parent|]; simpl; [|done].
  unfold load_plan. rewrite bind_run, load_run.
  destruct (hp_plans h !! parent) as [PP|] eqn:HPP; simpl; [|done].
  case_bool_decide as Hne; [|done].
  split; [done|]. by apply promote_all_frame.
Qed.

Lemma read_run s h :
  read copy_id worker_init_plan s h =
  match hp_states h !! s with
  | None => Raise DanglingRef h
  | Some st =>
      match owner_init_plan worker_init_plan (owner st) h with
      | Ok ip h1 =>
          (read_promotion copy_id s st ip ≫= λ _,
           load_state s ≫= λ st0, read_values (state_placeholders st0)) h1
      | Raise e h1 => Raise e h1
      end
  end.
Proof.
  unfold read. rewrite bind_run. unfold load_state at 1. rewrite load_run.
  by destruct (hp_states h !! s).
Qed.

Lemma owner_init_plan_run o h :
  owner_init_plan worker_init_plan o h =
  match o with
  | OwnerPlan pl =>
      match hp_plans h !! pl with
      | Some P => Ok (init_plan P) h
      | None => Raise DanglingRef h
      end
  | OwnerWorker w =>
      match worker_init_plan w with
      | Some ip => Ok ip h
      | None => Raise AttributeError h
      end
  end.
Proof.
  destruct o as [pl|w]; simpl.
  - unfold load_plan. rewrite bind_run, load_run. by destruct (hp_plans h !! pl).
  - by destruct (worker_init_plan w).
Qed.

Lemma read_frame_ancestor s h :
  match ancestor worker_init_plan h s with
  | Some (parent, sa) =>
      sa ≠ s ∧ read_frame parent sa h (final_heap (read copy_id worker_init_plan s h))
  | None => final_heap (read copy_id worker_init_plan s h) = h
  end.
Proof.
  rewrite read_run. unfold ancestor.
  destruct (hp_states h !! s) as [st|] eqn:Hs; [|done]. simpl.
  assert (∀ ip,
    final_heap ((read_promotion copy_id s st ip ≫= λ _,
                 load_state s ≫= λ st0, read_values (state_placeholders st0)) h)
    = final_heap (read_promotion copy_id s st ip h)) as Htail.
  { intros ip. apply final_heap_bind_pure. intros _ h1.
    unfold load_state. rewrite bind_run, load_run.
    destruct (hp_states h1 !! s); [|done]. apply read_values_heap. }
  rewrite owner_init_plan_run. destruct (owner st) as [pl|w].
  - destruct (hp_plans h !! pl) as [P|]; simpl; [|done].
    rewrite Htail. apply read_promotion_frame.
  - destruct (worker_init_plan w) as [ip|]; simpl; [|done].
    rewrite Htail. apply read_promotion_frame.
Qed.

(** Claim C7: [read] leaves the State it is called on unchanged, whether
    it returns or raises: the State object (its owner and its sequence)
    is the same, every placeholder object that existed before has the same
    identity, tags and child, and the values and the registries are the
    same. What changes is confined to the ancestor [read] promotes into,
    whose State is another State: that State has placeholders appended,
    the ancestor plan keeps its [init_plan] and its State and has its map
    and counter updated; when there is no such ancestor the store is left
    as it was. *)
Theorem read_leaves_self s h :
  let h' := final_heap (read copy_id worker_init_plan s h) in
  hp_states h' !! s = hp_states h !! s ∧
  (∀ p ph, hp_placeholders h !! p = Some ph → hp_placeholders h' !! p = Some ph) ∧
  hp_tensors h' = hp_tensors h ∧
  hp_registry h' = hp_registry h ∧
  match ancestor worker_init_plan h s with
  | Some (parent, sa) => sa ≠ s ∧ read_frame parent sa h h'
  | None => h' = h
  end.
Proof.
  intros h'. pose proof (read_frame_ancestor s h) as Hfr. fold h' in Hfr.
  destruct (ancestor worker_init_plan h s) as [[parent sa]|].
  - destruct Hfr as [Hne Hfr]. split; [by apply (frame_states _ _ _ _ Hfr)|].
    split; [|by destruct Hfr].
    intros p ph Hp. eapply prefix_lookup_Some; [done|]. by destruct Hfr.
  - by rewrite Hfr.
Qed.

(** ** Reading again *)

(** After a promotion the State is nested as before, in an ancestor whose
    State and plan are the updated objects. *)
Lemma nested_promoted h s st parent PP pst ds :
  nested worker_init_plan h s st parent PP pst →
  nested worker_init_plan (promoted_all copy_id parent PP pst ds h) s st parent
    (mkPlan (init_plan PP) (state PP)
       (register_copies (placeholders PP) (length (hp_placeholders h)) (t_id <$> ds.*2))
       (var_count PP + Z.of_nat (length ds)))
    (mkState (owner pst)
       (state_placeholders pst ++ seq (length (hp_placeholders h)) (length ds))).
Proof.
  intros [Hs Hown HPP Hne Hpst].
  split; simpl.
  - by rewrite list_lookup_insert_ne.
  - rewrite owner_init_plan_run in Hown |- *. simpl.
    destruct (owner st) as [pl|w]; [|by destruct (worker_init_plan w); simplify_eq].
    destruct (decide (pl = parent)) as [->|Hpl].
    + rewrite HPP in Hown.
      rewrite list_lookup_insert_eq by (by eapply lookup_lt_Some). simpl.
      injection Hown as Hown. by rewrite Hown.
    + rewrite list_lookup_insert_ne by done.
      destruct (hp_plans h !! pl); [|done]. injection Hown as Hown. by rewrite Hown.
  - apply list_lookup_insert_eq. by eapply lookup_lt_Some.
  - done.
  - apply list_lookup_insert_eq. by eapply lookup_lt_Some.
Qed.

Lemma resolve_promoted h parent PP pst ds' ps ds :
  Forall2 (λ p d, resolve h p = Some d) ps ds →
  Forall2 (λ p d, resolve (promoted_all copy_id parent PP pst ds' h) p = Some d) ps ds.
Proof.
  intros Hres. eapply Forall2_impl; [exact Hres|].
  intros p d. apply resolve_mono; [by apply prefix_app_r|done].
Qed.

(** Claim C3, as the code has it: after one promotion round, from an
    inner State owned by a plan or by a worker, a second [read] on the
    same inner State returns, and returns the same list as
    the first: the children of all its placeholders that do not carry
    "#inner" themselves. The inner State and its placeholders are as
    before the first call (the tagged copies are in the ancestor's
    State), so the value of every promoted placeholder that is not tagged
    "#inner" is returned again. *)
Theorem read_twice s h st parent PP pst ds :
  nested worker_init_plan h s st parent PP pst →
  Forall2 (λ p d, resolve h p = Some d) (state_placeholders st) ds →
  ∃ vs h1 h2,
    read copy_id worker_init_plan s h = Ok vs h1 ∧
    read copy_id worker_init_plan s h1 = Ok vs h2 ∧
    vs = visible_children ds.*1 ∧
    hp_states h1 !! s = Some st ∧
    Forall2 (λ p d, hp_placeholders h1 !! p = Some d.1) (state_placeholders st) ds ∧
    (∀ d, d ∈ ds → "#inner" ∉ ph_tags d.1 → ph_child d.1 ∈ vs).
Proof.
  intros Hn Hres.
  pose proof (nested_promoted _ _ _ _ _ _ ds Hn) as Hn1.
  pose proof (resolve_promoted _ parent PP pst ds _ _ Hres) as Hres1.
  eexists _, _, _.
  split; [exact (read_promote_ok _ _ _ _ _ _ _ Hn Hres)|].
  split; [exact (read_promote_ok _ _ _ _ _ _ _ Hn1 Hres1)|].
  split; [done|]. split; [by destruct Hn1|]. split.
  - eapply Forall2_impl; [exact Hres1|]. intros p [ph T] Hp.
    by apply resolve_Some in Hp as [? _].
  - intros [ph T] Hd Htag. unfold visible_children. simpl.
    apply list_elem_of_fmap. exists ph. split; [done|].
    apply list_elem_of_filter. split; [done|].
    apply list_elem_of_fmap. by exists (ph, T).
Qed.

(** ** Reading repeatedly *)

Lemma read_n_promotes k s st parent ds :
  NoDup (t_id <$> ds.*2) →
  ∀ h PP pst,
    nested worker_init_plan h s st parent PP pst →
    Forall2 (λ p d, resolve h p = Some d) (state_placeholders st) ds →
    ∃ h' PP',
      read_n copy_id worker_init_plan (S k) s h = Ok tt h' ∧
      hp_plans h' !! parent = Some PP' ∧
      state PP' = state PP ∧
      var_count PP' = (var_count PP + Z.of_nat (S k * length ds))%Z ∧
      dom (placeholders PP') = dom (placeholders PP) ∪ list_to_set (t_id <$> ds.*2) ∧
      (∀ j, j ∉ t_id <$> ds.*2 → placeholders PP' !! j = placeholders PP !! j) ∧
      (∀ i d, ds !! i = Some d →
         placeholders PP' !! t_id d.2
           = Some (length (hp_placeholders h) + k * length ds + i) ∧
         ∃ tags, hp_placeholders h' !! (length (hp_placeholders h) + k * length ds + i)
                 = Some (mkPlaceHolder (copy_id (ph_id d.1)) tags (ph_child d.1))) ∧
      hp_states h' !! state PP
        = Some (mkState (owner pst)
                  (state_placeholders pst
                     ++ seq (length (hp_placeholders h)) (S k * length ds))).
Proof.
  intros Hnd. induction k as [|k IH]; intros h PP pst Hn Hres.
  - eexists _, _. simpl. rewrite bind_run.
    rewrite (read_promote_ok _ _ _ _ _ _ _ Hn Hres). simpl.
    destruct Hn as [Hs _ HPP Hne Hpst].
    split; [done|]. unfold promoted_all; simpl.
    split; [apply list_lookup_insert_eq; by eapply lookup_lt_Some|].
    split; [done|]. simpl. split; [f_equal; lia|].
    split; [apply register_copies_dom|].
    split; [intros j Hj; by apply register_copies_notin|]. split.
    + intros i [ph T] Hd. split.
      * rewrite (register_copies_lookup _ _ _ i) by
          (try done; by rewrite !list_lookup_fmap, Hd).
        f_equal. lia.
      * eexists. rewrite lookup_app_r by lia.
        replace (length (hp_placeholders h) + 0 + i - length (hp_placeholders h))
          with i by lia.
        unfold copies. by rewrite list_lookup_imap, list_lookup_fmap, Hd.
    + rewrite list_lookup_insert_eq by (by eapply lookup_lt_Some).
      by rewrite ?Nat.mul_1_l, ?Nat.add_0_r.
  - pose proof (nested_promoted _ _ _ _ _ _ ds Hn) as Hn1.
    pose proof (resolve_promoted _ parent PP pst ds _ _ Hres) as Hres1.
    destruct (IH _ _ _ Hn1 Hres1) as (h' & PP' & Hrun & HPP' & Hst & Hc & Hdom & Hkeep & Hmap & Hseq).
    exists h', PP'.
    split.
    { change (read_n copy_id worker_init_plan (S (S k)) s) with
        (read copy_id worker_init_plan s ≫= λ _, read_n copy_id worker_init_plan (S k) s).
      rewrite bind_run, (read_promote_ok _ _ _ _ _ _ _ Hn Hres). exact Hrun. }
    assert (length (hp_placeholders (promoted_all copy_id parent PP pst ds h))
            = length (hp_placeholders h) + length ds) as Hlen.
    { unfold promoted_all, copies. simpl.
      by rewrite length_app, length_imap, length_fmap. }
    rewrite Hlen in Hmap, Hseq. simpl in Hst, Hc, Hdom, Hkeep, Hseq.
    split; [done|]. split; [done|]. split; [rewrite Hc; lia|].
    split; [rewrite Hdom, register_copies_dom; set_solver|].
    split; [intros j Hj; by rewrite Hkeep, register_copies_notin|]. split.
    + intros i d Hd. destruct (Hmap i d Hd) as [Hm Hp].
      replace (length (hp_placeholders h) + S k * length ds + i)
        with (length (hp_placeholders h) + length ds + k * length ds + i) by lia.
      done.
    + rewrite Hseq. do 2 f_equal. rewrite <- app_assoc. f_equal.
      change (S (S k) * length ds) with (length ds + S k * length ds).
      by rewrite (seq_app (length ds) (S k * length ds)).
Qed.

(** Claim C9: [n] successive calls of [read] (at least one) on an inner
    State (owned by a plan or by a worker) of K placeholders bound to
    values of pairwise distinct identities all return. Afterwards the ancestor's sequence has grown by
    n*K appended copies, while its map has one entry per bound-value
    identity: its keys are the keys it had plus those K identities, the
    other keys are as before, and the entry of the i-th identity is the
    copy of the i-th placeholder appended by the last call. *)
Theorem read_repeated n s h st parent PP pst ds :
  0 < n →
  nested worker_init_plan h s st parent PP pst →
  Forall2 (λ p d, resolve h p = Some d) (state_placeholders st) ds →
  NoDup (t_id <$> ds.*2) →
  let K := length (state_placeholders st) in
  ∃ h' PP' pst' new,
    read_n copy_id worker_init_plan n s h = Ok tt h' ∧
    hp_plans h' !! parent = Some PP' ∧
    hp_states h' !! state PP = Some pst' ∧
    state_placeholders pst' = state_placeholders pst ++ new ∧
    length new = n * K ∧
    dom (placeholders PP') = dom (placeholders PP) ∪ list_to_set (t_id <$> ds.*2) ∧
    size (list_to_set (t_id <$> ds.*2) : gset Z) = K ∧
    (∀ j, j ∉ t_id <$> ds.*2 → placeholders PP' !! j = placeholders PP !! j) ∧
    (∀ i d, ds !! i = Some d →
       ∃ c tags,
         placeholders PP' !! t_id d.2 = Some c ∧
         new !! ((n - 1) * K + i) = Some c ∧
         hp_placeholders h' !! c
           = Some (mkPlaceHolder (copy_id (ph_id d.1)) tags (ph_child d.1))).
Proof.
  intros Hpos Hn Hres Hnd K.
  assert (K = length ds) as HK by (subst K; by eapply Forall2_length).
  destruct n as [|k]; [lia|]. clear Hpos.
  destruct (read_n_promotes k s st parent ds Hnd h PP pst Hn Hres)
    as (h' & PP' & Hrun & HPP' & Hst & Hc & Hdom & Hkeep & Hmap & Hseq).
  eexists h', PP', _, _. split; [done|]. split; [done|]. split; [exact Hseq|].
  simpl. split; [done|]. split; [rewrite length_seq; lia|].
  split; [done|].
  split; [rewrite size_list_to_set by done; by rewrite !length_fmap|].
  split; [done|].
  intros i d Hd. destruct (Hmap i d Hd) as (Hm & tags & Hp).
  eexists _, tags. split; [exact Hm|]. split; [|exact Hp].
  rewrite Nat.sub_0_r, HK. apply lookup_seq.
  apply lookup_lt_Some in Hd. split; lia.
Qed.

End ReadFacts.

(** ** [copy] *)

(** [copy] returns a new State object with the owner and the placeholders
    of the original, and changes nothing else. *)
Lemma copy_shallow s st h :
  hp_states h !! s = Some st →
  copy s h = Ok (length (hp_states h)) (with_states (λ l, l ++ [st]) h) ∧
  s ≠ length (hp_states h).
Proof.
  intros Hs. split.
  - unfold copy, load_state, alloc_state. rewrite bind_run, load_run, Hs. by destruct st.
  - apply lookup_lt_Some in Hs. lia.
Qed.

(** ** [tensors] *)

(** What the body of [tensors] does: it returns the children of the
    placeholders in placeholder order, with [None] at the position of a
    placeholder that holds no value. When every placeholder holds a
    value the list is the list of the bound values. *)
Theorem tensors_returns_children s h st phs :
  hp_states h !! s = Some st →
  Forall2 (λ p ph, hp_placeholders h !! p = Some ph) (state_placeholders st) phs →
  tensors s h = Ok (ph_child <$> phs) h ∧
  (∀ ts, Forall2 (λ ph t, ph_child ph = Some t) phs ts →
         tensors s h = Ok (Some <$> ts) h).
Proof.
  intros Hs Hphs.
  assert (tensors s h = Ok (ph_child <$> phs) h) as Hrun.
  { unfold tensors, load_state. rewrite bind_run, load_run, Hs. by apply tensors_run. }
  split; [done|]. intros ts Hts. rewrite Hrun. do 2 f_equal.
  clear -Hts. induction Hts as [|ph t phs ts Hc _ IH]; [done|].
  rewrite !fmap_cons. congruence.
Qed.

(** ** [set_] *)

(** The inner loop of [set_] for the entry [(k, v)], run over [ps]. *)
Lemma set_inner_spec (k : Z) (v : nat) (ps : list nat) :
  ∀ h, Forall (λ p, is_Some (hp_placeholders h !! p)) ps →
  ∃ l', for_each (λ p, ph ← load_placeholder p;
                       if bool_decide (ph_id ph = (k, v).1)
                       then PlaceHolder_instantiate p (k, v).2
                       else ret tt) ps h
        = Ok tt (with_placeholders (λ _, l') h) ∧
        length l' = length (hp_placeholders h) ∧
        ∀ p ph, hp_placeholders h !! p = Some ph →
                l' !! p = Some (if decide (p ∈ ps ∧ ph_id ph = k) then rebound ph v else ph).
Proof.
  induction ps as [|q ps IH]; intros h Hvalid.
  - exists (hp_placeholders h). rewrite with_placeholders_id.
    split; [done|]. split; [done|]. intros p ph Hp.
    rewrite decide_False; [done|]. intros [Hin _]. by apply not_elem_of_nil in Hin.
  - apply Forall_cons in Hvalid as [[phq Hq] Hvalid].
    set (l1 := if bool_decide (ph_id phq = k)
               then <[q := rebound phq v]> (hp_placeholders h) else hp_placeholders h).
    assert (length l1 = length (hp_placeholders h)) as Hlen1.
    { subst l1. case_bool_decide; [apply length_insert|done]. }
    destruct (IH (with_placeholders (λ _, l1) h)) as (l' & Hrun & Hlen & Hpt).
    { simpl. by apply (valid_same_length (hp_placeholders h)). }
    exists l'. split; [|split; [simpl in Hlen; congruence|]].
    + cbn [for_each]. rewrite bind_run, bind_run. unfold load_placeholder at 1.
      rewrite load_run, Hq. cbn [fst snd].
      subst l1. case_bool_decide as Hk.
      * rewrite instantiate_run, Hq. exact Hrun.
      * unfold ret at 1. rewrite with_placeholders_id in Hrun. exact Hrun.
    + intros p ph Hp. simpl in Hpt.
      assert (l1 !! p = Some (if decide (p = q ∧ ph_id ph = k) then rebound ph v else ph))
        as Hp1.
      { subst l1. case_bool_decide as Hk.
        - destruct (decide (p = q)) as [->|Hne].
          + simplify_eq. rewrite decide_True by done.
            apply list_lookup_insert_eq. by eapply lookup_lt_Some.
          + rewrite list_lookup_insert_ne by done.
            rewrite decide_False; [done|]. by intros [? _].
        - rewrite decide_False; [done|]. intros [-> ?]. by simplify_eq. }
      rewrite (Hpt _ _ Hp1). f_equal.
      destruct (decide (p = q ∧ ph_id ph = k)) as [[-> Hk]|Hn]; simpl.
      * rewrite (decide_True (P := q ∈ q :: ps ∧ _)) by (split; [left|done]).
        by destruct (decide (q ∈ ps ∧ ph_id ph = k)).
      * destruct (decide (p ∈ ps ∧ ph_id ph = k)) as [[Hin Hk]|Hn'].
        -- rewrite decide_True; [done|]. split; [by right|done].
        -- rewrite decide_False; [done|]. intros [Hin Hk].
           apply elem_of_cons in Hin as [->|Hin]; tauto.
Qed.

Lemma set_items_spec (s : nat) (st : State) (items : list (Z * nat)) :
  NoDup items.*1 →
  ∀ h, hp_states h !! s = Some st →
       Forall (λ p, is_Some (hp_placeholders h !! p)) (state_placeholders st) →
  ∃ l', set_items s items h = Ok tt (with_placeholders (λ _, l') h) ∧
        length l' = length (hp_placeholders h) ∧
        ∀ p ph, hp_placeholders h !! p = Some ph →
                l' !! p = Some (if decide (p ∈ state_placeholders st)
                                then rebind (list_to_map items) ph else ph).
Proof.
  unfold set_items.
  induction items as [|[k v] items IH]; intros Hnd h Hs Hvalid.
  - exists (hp_placeholders h). rewrite with_placeholders_id.
    split; [done|]. split; [done|]. intros p ph Hp.
    unfold rebind. simpl. rewrite lookup_empty. by destruct (decide _).
  - rewrite fmap_cons in Hnd. apply NoDup_cons in Hnd as [Hk Hnd]. simpl in Hk.
    destruct (set_inner_spec k v _ h Hvalid) as (l1 & Hrun1 & Hlen1 & Hpt1).
    destruct (IH Hnd (with_placeholders (λ _, l1) h)) as (l' & Hrun & Hlen & Hpt).
    { done. }
    { simpl. by apply (valid_same_length (hp_placeholders h)). }
    exists l'. split; [|split; [simpl in Hlen; congruence|]].
    + cbn [for_each]. rewrite bind_run. unfold set_entry at 1.
      rewrite bind_run. unfold load_state at 1. rewrite load_run, Hs.
      cbv beta iota. rewrite Hrun1. exact Hrun.
    + intros p ph Hp. simpl in Hpt. rewrite (Hpt _ _ (Hpt1 _ _ Hp)). f_equal.
      unfold rebind. simpl.
      destruct (decide (p ∈ state_placeholders st)) as [Hin|Hin].
      * destruct (decide (ph_id ph = k)) as [Heq|Hne].
        -- rewrite decide_True by done. simpl. rewrite Heq.
           rewrite lookup_insert_eq.
           by rewrite (not_elem_of_list_to_map_1 _ _ Hk).
        -- rewrite decide_False by tauto.
           by rewrite lookup_insert_ne.
      * rewrite decide_False by tauto. done.
Qed.

(** Claim C5: [set_] returns without error whatever the keys of the
    dictionary. Afterwards every placeholder of the State whose id is a
    key is bound to the mapped value (its former binding is replaced, its
    id and tags are kept), every placeholder whose id is not a key is as
    before, and nothing else in the store has changed: a key that matches
    no placeholder has no effect. *)
Theorem set_rebinds (s : nat) (st : State) (state_dict : gmap Z nat) (h : heap) :
  hp_states h !! s = Some st →
  Forall (λ p, is_Some (hp_placeholders h !! p)) (state_placeholders st) →
  ∃ h', set_ s state_dict h = Ok tt h' ∧
        hp_tensors h' = hp_tensors h ∧
        hp_states h' = hp_states h ∧
        hp_plans h' = hp_plans h ∧
        hp_registry h' = hp_registry h ∧
        length (hp_placeholders h') = length (hp_placeholders h) ∧
        ∀ p ph, hp_placeholders h !! p = Some ph →
          hp_placeholders h' !! p =
            Some (if decide (p ∈ state_placeholders st)
                  then match state_dict !! ph_id ph with
                       | Some v => mkPlaceHolder (ph_id ph) (ph_tags ph) (Some v)
                       | None => ph
                       end
                  else ph).
Proof.
  intros Hs Hvalid.
  destruct (set_items_spec s st (map_to_list state_dict)
              (NoDup_fst_map_to_list _) h Hs Hvalid) as (l' & Hrun & Hlen & Hpt).
  eexists. split; [exact Hrun|]. simpl. repeat (split; [done|]).
  intros p ph Hp. rewrite (Hpt _ _ Hp). unfold rebind.
  by rewrite list_to_map_to_list.
Qed.

(** ** [clone_state_dict] *)

Lemma clone_entries_ok (ps : list nat) :
  ∀ (ds : list (PlaceHolder * Tensor)) (h : heap) (d : gmap Z nat),
    Forall2 (λ p d, resolve h p = Some d) ps ds →
    clone_entries ps d h
    = Ok (register_copies d (length (hp_tensors h)) (ph_id <$> ds.*1))
         (with_tensors (λ l, l ++ ds.*2) h).
Proof.
  induction ps as [|p ps IH]; intros ds h d Hres.
  - apply Forall2_nil_inv_l in Hres as ->. simpl.
    unfold ret, with_tensors. rewrite app_nil_r. by destruct h.
  - apply Forall2_cons_inv_l in Hres as ([ph T] & ds' & Hp & Hres & ->).
    apply resolve_Some in Hp as (Hp & t & Hc & Ht).
    cbn [clone_entries]. rewrite bind_run. unfold load_placeholder at 1.
    rewrite load_run, Hp, Hc. rewrite bind_run.
    unfold Tensor_clone, load_tensor, alloc_tensor. rewrite bind_run, load_run, Ht.
    rewrite (IH ds').
    + unfold with_tensors. simpl. rewrite length_app, <- app_assoc. simpl.
      by replace (length (hp_tensors h) + 1) with (S (length (hp_tensors h))) by lia.
    + eapply Forall2_impl; [exact Hres|]. intros q dq. apply resolve_grow; [done|].
      intros t0 T0 Ht0. simpl. by apply lookup_app_l_Some.
Qed.

Lemma clone_state_dict_run s st h :
  hp_states h !! s = Some st →
  clone_state_dict s h = clone_entries (state_placeholders st) ∅ h.
Proof.
  intros Hs. unfold clone_state_dict, load_state. by rewrite bind_run, load_run, Hs.
Qed.

(** Claim C8: on a State whose placeholders all hold a bound value
    (their ids pairwise distinct, as the State invariant has it),
    [clone_state_dict] returns a dictionary whose keys are the ids of the
    placeholders; the entry of each placeholder is a new value object with
    the content of the bound value, distinct from it, and writing into
    that object leaves every placeholder of the State bound to a value
    of unchanged content. *)
Theorem clone_state_dict_independent s st h ds :
  hp_states h !! s = Some st →
  Forall2 (λ p d, resolve h p = Some d) (state_placeholders st) ds →
  NoDup (ph_id <$> ds.*1) →
  ∃ d h',
    clone_state_dict s h = Ok d h' ∧
    hp_placeholders h' = hp_placeholders h ∧
    hp_states h' = hp_states h ∧
    dom d = list_to_set (ph_id <$> ds.*1) ∧
    ∀ i ph T, ds !! i = Some (ph, T) →
      ∃ c, d !! ph_id ph = Some c ∧
           hp_tensors h' !! c = Some T ∧
           hp_tensors h !! c = None ∧
           ph_child ph ≠ Some c ∧
           ∀ data, ∃ h'',
             Tensor_write c data h' = Ok tt h'' ∧
             hp_tensors h'' !! c = Some (mkTensor (t_id T) data) ∧
             hp_placeholders h'' = hp_placeholders h ∧
             Forall2 (λ p d, resolve h'' p = Some d) (state_placeholders st) ds.
Proof.
  intros Hs Hres Hnd.
  exists (register_copies ∅ (length (hp_tensors h)) (ph_id <$> ds.*1)),
         (with_tensors (λ l, l ++ ds.*2) h).
  split.
  { rewrite (clone_state_dict_run _ _ _ Hs). by apply clone_entries_ok. }
  simpl. split; [done|]. split; [done|].
  split; [by rewrite register_copies_dom, dom_empty_L, (left_id_L ∅ (∪))|].
  intros i ph T Hd. exists (length (hp_tensors h) + i).
  assert (ds.*2 !! i = Some T) as HT by (by rewrite list_lookup_fmap, Hd).
  assert ((hp_tensors h ++ ds.*2) !! (length (hp_tensors h) + i) = Some T) as Hc.
  { rewrite lookup_app_r by lia.
    by replace (length (hp_tensors h) + i - length (hp_tensors h)) with i by lia. }
  split.
  { apply register_copies_lookup; [done|]. by rewrite !list_lookup_fmap, Hd. }
  split; [done|].
  split; [apply lookup_ge_None; lia|].
  split.
  { intros Hch. pose proof (Forall2_lookup_r _ _ _ _ _ Hres Hd) as (p & _ & Hp).
    apply resolve_Some in Hp as (_ & t & Hct & Ht). simpl in *.
    apply lookup_lt_Some in Ht. simplify_eq. lia. }
  intros data. eexists. split.
  { unfold Tensor_write, load_tensor. rewrite bind_run, load_run. simpl.
    rewrite Hc. reflexivity. }
  simpl. split.
  { apply list_lookup_insert_eq. by eapply lookup_lt_Some. }
  split; [done|].
  eapply Forall2_impl; [exact Hres|]. intros q dq. apply resolve_grow; [done|].
  intros t0 T0 Ht0. simpl.
  rewrite list_lookup_insert_ne by (apply lookup_lt_Some in Ht0; lia).
  by apply lookup_app_l_Some.
Qed.

(** ** [simplify] and [detail] *)

Lemma for_collect_pure {A B} (f : A → M B) (h : heap) (xs : list A) (ys : list B) :
  Forall2 (λ x y, f x h = Ok y h) xs ys →
  for_collect f xs h = Ok ys h.
Proof.
  induction 1 as [|x y xs ys Hx _ IH]; [done|].
  cbn [for_collect]. by rewrite bind_run, Hx, bind_run, IH.
Qed.

Lemma allocated_value (pre vals : list Tensor) i T :
  vals !! i = Some T → (pre ++ vals) !! (length pre + i) = Some T.
Proof.
  intros Hi. rewrite lookup_app_r by lia.
  by replace (length pre + i - length pre) with i by lia.
Qed.

(** *** The registry built by the first loop *)

Lemma register_values_other w r objs key :
  (∀ o, o ∈ objs → key ≠ (w, t_id o.2)) →
  register_values w r objs !! key = r !! key.
Proof.
  revert r. induction objs as [|o objs IH]; intros r Hkey; [done|].
  simpl. rewrite IH.
  - apply lookup_insert_ne. intros Heq. by apply (Hkey o); [left|].
  - intros o' Ho'. apply Hkey. by right.
Qed.

Lemma register_values_app w r objs1 objs2 :
  register_values w r (objs1 ++ objs2)
  = register_values w (register_values w r objs1) objs2.
Proof. revert r. induction objs1 as [|o objs1 IH]; intros r; [done|]. apply IH. Qed.

(** The entry of an identity is the object registered last under it. *)
Lemma register_values_registered w objs :
  ∀ r i o, objs !! i = Some o →
    ∃ j o', i ≤ j ∧ objs !! j = Some o' ∧ t_id o'.2 = t_id o.2 ∧
            register_values w r objs !! (w, t_id o.2) = Some o'.1 ∧
            ((∀ j' o'', objs !! j' = Some o'' → i < j' → t_id o''.2 ≠ t_id o.2) → j = i).
Proof.
  induction objs as [|o0 objs IH] using rev_ind; intros r i o Hi; [done|].
  rewrite register_values_app. simpl.
  destruct (decide (t_id o0.2 = t_id o.2)) as [Heq|Hne].
  - exists (length objs), o0.
    pose proof (lookup_lt_Some _ _ _ Hi) as Hlt. rewrite length_app in Hlt. simpl in Hlt.
    split; [lia|]. split; [apply lookup_snoc_new|]. split; [done|].
    split; [by rewrite <- Heq, lookup_insert_eq|].
    intros Hlast. destruct (decide (i = length objs)) as [|Hi']; [done|].
    exfalso. apply (Hlast (length objs) o0); [apply lookup_snoc_new|lia|done].
  - assert (objs !! i = Some o) as Hi'.
    { apply lookup_app_Some in Hi as [?|[Hge Hi]]; [done|].
      apply list_lookup_singleton_Some in Hi as [_ ->]. done. }
    destruct (IH r i o Hi') as (j & o' & Hle & Hj & Hid & Hreg & Hlast).
    exists j, o'. split; [done|]. split; [by apply lookup_app_l_Some|].
    split; [done|]. split.
    + rewrite lookup_insert_ne; [done|]. by intros [= ?].
    + intros Hl. apply Hlast. intros j' o'' Hj' Hlt. apply (Hl j' o''); [|done].
      by apply lookup_app_l_Some.
Qed.

(** *** The bindings made by the second loop *)

Lemma bind_positional_length l pairs : length (bind_positional l pairs) = length l.
Proof.
  revert l. induction pairs as [|pt pairs IH]; intros l; [done|].
  simpl. rewrite IH. destruct (l !! pt.1); [apply length_insert|done].
Qed.

Lemma bind_positional_other l pairs p :
  p ∉ pairs.*1 → bind_positional l pairs !! p = l !! p.
Proof.
  revert l. induction pairs as [|pt pairs IH]; intros l Hp; [done|].
  rewrite fmap_cons in Hp. apply not_elem_of_cons in Hp as [Hne Hp].
  simpl. rewrite IH by done.
  destruct (l !! pt.1); [by apply list_lookup_insert_ne|done].
Qed.

(** Binding keeps the id and the tags of every placeholder. *)
Lemma bind_positional_keeps l pairs p ph :
  l !! p = Some ph →
  ∃ c, bind_positional l pairs !! p = Some (mkPlaceHolder (ph_id ph) (ph_tags ph) c).
Proof.
  revert l ph. induction pairs as [|pt pairs IH]; intros l ph Hp.
  { exists (ph_child ph). by destruct ph. }
  simpl. destruct (l !! pt.1) as [ph0|] eqn:H0; [|by apply IH].
  destruct (decide (p = pt.1)) as [->|Hne].
  - simplify_eq. destruct (IH (<[pt.1 := rebound ph pt.2]> l) (rebound ph pt.2)) as [c Hc].
    { apply list_lookup_insert_eq. by eapply lookup_lt_Some. }
    by exists c.
  - apply IH. by rewrite list_lookup_insert_ne.
Qed.

(** A placeholder is bound to the value of the last pair it occurs in. *)
Lemma bind_positional_last l pairs i p t ph :
  pairs !! i = Some (p, t) →
  (∀ j t', i < j → pairs !! j ≠ Some (p, t')) →
  l !! p = Some ph →
  bind_positional l pairs !! p = Some (rebound ph t).
Proof.
  revert l i ph. induction pairs as [|pt pairs IH]; intros l i ph Hi Hlast Hp; [done|].
  destruct i as [|i]; simpl in *.
  - simplify_eq. simpl. rewrite Hp. rewrite bind_positional_other.
    + apply list_lookup_insert_eq. by eapply lookup_lt_Some.
    + intros Hin. apply list_elem_of_fmap in Hin as ([p' t'] & -> & Hin).
      apply list_elem_of_lookup in Hin as [j Hj]. simpl in *.
      apply (Hlast (S j) t'); [lia|done].
  - assert (∀ j t', i < j → pairs !! j ≠ Some (p, t')) as Hlast'.
    { intros j t' Hj. apply (Hlast (S j) t'). lia. }
    destruct (l !! pt.1) as [ph0|] eqn:H0; [|by eapply IH].
    destruct (decide (p = pt.1)) as [->|Hne].
    + simplify_eq.
      rewrite (IH (<[pt.1 := rebound ph pt.2]> l) i (rebound ph pt.2)); [done|done|done|].
      apply list_lookup_insert_eq. by eapply lookup_lt_Some.
    + eapply IH; [done|done|]. by rewrite list_lookup_insert_ne.
Qed.

Lemma zip_lookup_Some {A B} (xs : list A) (ys : list B) i x y :
  zip xs ys !! i = Some (x, y) ↔ xs !! i = Some x ∧ ys !! i = Some y.
Proof.
  revert ys i. induction xs as [|x0 xs IH]; intros [|y0 ys] [|i]; simpl;
    try (split; [done|by intros [? ?]]).
  - split; [by intros [= -> ->]|by intros [[= ->] [= ->]]].
  - apply IH.
Qed.

(** The same, by positions of the two sequences [zip] pairs. *)
Lemma bind_positional_zip l ps ts i p t ph :
  ps !! i = Some p →
  ts !! i = Some t →
  (∀ j, i < j → j < length ts → ps !! j ≠ Some p) →
  l !! p = Some ph →
  bind_positional l (zip ps ts) !! p = Some (rebound ph t).
Proof.
  intros Hp Ht Hlast Hl. apply (bind_positional_last _ _ i); [|  |done].
  - by apply zip_lookup_Some.
  - intros j t' Hj Hz. apply zip_lookup_Some in Hz as [Hpj Htj].
    apply (Hlast j); [done|by eapply lookup_lt_Some|done].
Qed.


(** *** The two loops *)

Lemma register_all_run (w : nat) (objs : list (nat * Tensor)) :
  ∀ h, located h objs →
       register_all w (Some <$> objs.*1) h = Ok tt (registered_heap w objs h).
Proof.
  unfold register_all, registered_heap, located.
  induction objs as [|o objs IH]; intros h Hloc.
  - simpl. unfold ret, with_registry. by destruct h.
  - apply Forall_cons in Hloc as [Ho Hloc].
    rewrite !fmap_cons. cbn [for_each]. rewrite bind_run, bind_run.
    unfold load_tensor at 1. rewrite load_run, Ho.
    unfold register_obj, modify.
    rewrite (IH (with_registry (λ r, <[(w, t_id o.2) := o.1]> r) h)) by exact Hloc.
    done.
Qed.

(** The first loop stops at the first element that is None, after it
    has registered the objects before it. *)
Lemma register_all_stops (w : nat) objs rest h :
  located h objs →
  register_all w (elements objs (Some rest)) h
  = Raise AttributeError (registered_heap w objs h).
Proof.
  intros Hloc. unfold elements.
  pose proof (register_all_run w objs h Hloc) as Hrun.
  unfold register_all in *. rewrite for_each_app, Hrun. done.
Qed.

Lemma instantiate_all_run (ps : list nat) :
  ∀ ts h, Forall (λ p, is_Some (hp_placeholders h !! p)) ps →
    instantiate_all ps (Some <$> ts) h
    = Ok tt (with_placeholders (λ l, bind_positional l (zip ps ts)) h).
Proof.
  unfold instantiate_all.
  induction ps as [|p ps IH]; intros ts h Hvalid.
  { simpl. unfold ret, with_placeholders. by destruct h. }
  destruct ts as [|t ts].
  { simpl. unfold ret, with_placeholders. by destruct h. }
  apply Forall_cons in Hvalid as [[ph Hp] Hvalid].
  rewrite fmap_cons. cbn [zip zip_with for_each]. rewrite bind_run.
  cbn [fst snd instantiate_element]. rewrite instantiate_run, Hp.
  rewrite (IH ts).
  - unfold with_placeholders. simpl. by rewrite Hp.
  - simpl. apply (valid_same_length (hp_placeholders h)); [apply length_insert|done].
Qed.

Lemma detailed_heap_state w ps objs h :
  hp_states (detailed_heap w ps objs h) !! length (hp_states h)
  = Some (mkState (OwnerWorker w) ps).
Proof. simpl. apply lookup_snoc_new. Qed.

Section SerdeFacts.

Variable wire : Type.
Variable serde_simplify_placeholders : nat → list PlaceHolder → wire.
Variable serde_simplify_values : nat → list (option Tensor) → wire.
Variable serde_detail_placeholders : nat → wire → M (list nat).
Variable serde_detail_values : nat → wire → M (list (option nat)).

(** [detail], once the codec has returned the placeholders [ps] and the
    values: when every value is an object, and when one is None. *)
Lemma detail_run w a b h ps h1 objs stop h2 :
  serde_detail_placeholders w a h = Ok ps h1 →
  serde_detail_values w b h1 = Ok (elements objs stop) h2 →
  located h2 objs →
  detail wire serde_detail_placeholders serde_detail_values w (a, b) h =
  match stop with
  | Some rest => Raise AttributeError (registered_heap w objs h2)
  | None =>
      match instantiate_all ps (Some <$> objs.*1) (registered_heap w objs h2) with
      | Ok _ h3 => Ok (length (hp_states h3))
                      (with_states (λ l, l ++ [mkState (OwnerWorker w) ps]) h3)
      | Raise e h3 => Raise e h3
      end
  end.
Proof.
  intros Ha Hb Hloc. unfold detail. cbn [fst snd].
  rewrite bind_run, Ha, bind_run, Hb, bind_run.
  destruct stop as [rest|].
  - by rewrite (register_all_stops w objs rest h2 Hloc).
  - unfold elements. rewrite app_nil_r, (register_all_run w objs h2 Hloc).
    rewrite bind_run. by destruct (instantiate_all _ _ _).
Qed.

Lemma detail_run_ok w a b h ps h1 objs h2 :
  serde_detail_placeholders w a h = Ok ps h1 →
  serde_detail_values w b h1 = Ok (elements objs None) h2 →
  located h2 objs →
  Forall (λ p, is_Some (hp_placeholders h2 !! p)) ps →
  detail wire serde_detail_placeholders serde_detail_values w (a, b) h
  = Ok (length (hp_states h2)) (detailed_heap w ps objs h2).
Proof.
  intros Ha Hb Hloc Hvalid.
  rewrite (detail_run w a b h ps h1 objs None h2 Ha Hb Hloc).
  by rewrite (instantiate_all_run ps objs.*1 (registered_heap w objs h2) Hvalid).
Qed.

Lemma simplify_run w s st h ds :
  hp_states h !! s = Some st →
  Forall2 (λ p d, resolve h p = Some d) (state_placeholders st) ds →
  simplify wire serde_simplify_placeholders serde_simplify_values w s h
  = Ok (serde_simplify_placeholders w ds.*1,
        serde_simplify_values w (Some <$> ds.*2)) h.
Proof.
  intros Hs Hres. unfold simplify.
  rewrite bind_run. unfold load_state at 1. rewrite load_run, Hs.
  rewrite bind_run, (for_collect_pure _ _ _ ds.*1).
  2:{ eapply Forall2_fmap_r, Forall2_impl; [exact Hres|]. intros p [ph T] Hp.
      apply resolve_Some in Hp as [Hp _]. unfold load_placeholder.
      by rewrite load_run, Hp. }
  rewrite bind_run. unfold tensors at 1.
  rewrite bind_run. unfold load_state at 1. rewrite load_run, Hs.
  rewrite (tensors_run _ ds.*1) by (by apply resolve_placeholders).
  rewrite bind_run, (for_collect_pure _ _ _ (Some <$> ds.*2)); [done|].
  apply Forall2_fmap, Forall2_fmap, Forall_Forall2_diag.
  apply Forall_forall. intros [ph T] Hd.
  apply list_elem_of_lookup in Hd as [i Hd].
  destruct (Forall2_lookup_r _ _ _ _ _ Hres Hd) as (p & _ & Hp).
  apply resolve_Some in Hp as (_ & t & Hc & Ht). simpl.
  rewrite Hc. unfold load_value, load_tensor. by rewrite bind_run, load_run, Ht.
Qed.

Lemma detailed_heap_registered w ps objs h :
  registered w objs (hp_registry (detailed_heap w ps objs h)).
Proof. intros i o Hi. simpl. by apply register_values_registered. Qed.




(** Claim C4: the round trip. From a State whose N placeholders all
    hold a bound value, [simplify] returns a tuple; and whenever the
    codec's [detail] acts on it as a left inverse of its [simplify],
    that is, whenever detailing the first half yields pairwise distinct
    placeholder objects with the ids and tags of the simplified
    sequence and detailing the second half yields value objects with
    the contents of the simplified sequence and leaves the placeholder
    objects alone, [detail] returns, in any receiving store, a State
    owned by the worker with N placeholders; the placeholder at each
    position has the id and the tags of the original and is bound to a
    value equal in content to the original value at that position; and
    each identity is registered with the worker, the entry being a
    reconstructed value of that identity: the value of the position
    itself when no later value shares the identity, and a value of equal
    content when the identity determines the value. *)
Theorem detail_simplify_roundtrip w s st h ds :
  hp_states h !! s = Some st →
  Forall2 (λ p d, resolve h p = Some d) (state_placeholders st) ds →
  ∃ state_tuple,
    simplify wire serde_simplify_placeholders serde_simplify_values w s h
      = Ok state_tuple h ∧
    state_tuple = (serde_simplify_placeholders w ds.*1,
                   serde_simplify_values w (Some <$> ds.*2)) ∧
    ∀ hr ps hr1 objs hr2,
      serde_detail_placeholders w state_tuple.1 hr = Ok ps hr1 →
      NoDup ps →
      Forall2 (λ p ph, ∃ c, hp_placeholders hr1 !! p
                            = Some (mkPlaceHolder (ph_id ph) (ph_tags ph) c)) ps ds.*1 →
      serde_detail_values w state_tuple.2 hr1 = Ok (Some <$> objs.*1) hr2 →
      objs.*2 = ds.*2 →
      located hr2 objs →
      (∀ p ph, hp_placeholders hr1 !! p = Some ph → hp_placeholders hr2 !! p = Some ph) →
      ∃ s' h' st',
        detail wire serde_detail_placeholders serde_detail_values w state_tuple hr
          = Ok s' h' ∧
        hp_states h' !! s' = Some st' ∧
        owner st' = OwnerWorker w ∧
        length (state_placeholders st') = length (state_placeholders st) ∧
        ∀ i ph T, ds !! i = Some (ph, T) →
          ∃ p' t',
            state_placeholders st' !! i = Some p' ∧
            hp_placeholders h' !! p'
              = Some (mkPlaceHolder (ph_id ph) (ph_tags ph) (Some t')) ∧
            hp_tensors h' !! t' = Some T ∧
            ∃ r T', hp_registry h' !! (w, t_id T) = Some r ∧
                    hp_tensors h' !! r = Some T' ∧
                    t_id T' = t_id T ∧
                    ((∀ j d, ds !! j = Some d → t_id d.2 = t_id T → d.2 = T) → T' = T) ∧
                    ((∀ j d, ds !! j = Some d → i < j → t_id d.2 ≠ t_id T) → r = t').
Proof.
  intros Hs Hres. eexists. split; [by apply (simplify_run w s st h ds)|].
  split; [done|].
  intros hr ps hr1 objs hr2 Ha Hnd Hps Hb Hobjs Hloc Hkeep. cbn [fst snd] in Ha, Hb.
  assert (length ps = length ds) as Hlps.
  { rewrite (Forall2_length _ _ _ Hps). apply length_fmap. }
  assert (length objs = length ds) as Hlobjs.
  { rewrite <- (length_fmap snd objs), Hobjs. apply length_fmap. }
  assert (Forall (λ p, is_Some (hp_placeholders hr2 !! p)) ps) as Hvalid.
  { apply Forall_forall. intros p Hp. apply list_elem_of_lookup in Hp as [i Hi].
    destruct (Forall2_lookup_l _ _ _ _ _ Hps Hi) as (ph & _ & c & Hc).
    rewrite (Hkeep _ _ Hc). eauto. }
  assert (serde_detail_values w (serde_simplify_values w (Some <$> ds.*2)) hr1
          = Ok (elements objs None) hr2) as Hb'.
  { unfold elements. by rewrite app_nil_r. }
  exists (length (hp_states hr2)), (detailed_heap w ps objs hr2), (mkState (OwnerWorker w) ps).
  split; [exact (detail_run_ok w _ _ hr ps hr1 objs hr2 Ha Hb' Hloc Hvalid)|].
  split; [apply detailed_heap_state|]. split; [done|].
  split. { simpl. rewrite Hlps. symmetry. by eapply Forall2_length. }
  assert (∀ j o, objs !! j = Some o → hp_tensors hr2 !! o.1 = Some o.2) as Hlook.
  { apply Forall_lookup. exact Hloc. }
  intros i ph T Hd.
  assert (ds.*1 !! i = Some ph) as Hphi by (by rewrite list_lookup_fmap, Hd).
  destruct (Forall2_lookup_r _ _ _ _ _ Hps Hphi) as (p' & Hp' & c & Hc).
  assert (∃ t', objs !! i = Some (t', T)) as [t' Ho].
  { destruct (lookup_lt_is_Some_2 objs i) as [[t' T'] Ho].
    { rewrite Hlobjs. by eapply lookup_lt_Some. }
    exists t'. rewrite Ho. do 2 f_equal.
    assert (objs.*2 !! i = Some T') as H2 by (by rewrite list_lookup_fmap, Ho).
    rewrite Hobjs, list_lookup_fmap, Hd in H2. by simplify_eq/=. }
  assert (∀ j o, objs !! j = Some o → ∃ d, ds !! j = Some d ∧ d.2 = o.2) as Hback.
  { intros j o Hj.
    assert (objs.*2 !! j = Some o.2) as H2 by (by rewrite list_lookup_fmap, Hj).
    rewrite Hobjs, list_lookup_fmap in H2.
    destruct (ds !! j) as [d|]; simplify_eq/=. eauto. }
  exists p', t'. split; [done|]. split.
  { simpl.
    rewrite (bind_positional_zip (hp_placeholders hr2) ps objs.*1 i p' t'
               (mkPlaceHolder (ph_id ph) (ph_tags ph) c) Hp'); [done| | |].
    - by rewrite list_lookup_fmap, Ho.
    - intros j Hij _ Hj. pose proof (NoDup_lookup _ _ _ _ Hnd Hp' Hj). lia.
    - by apply Hkeep. }
  split; [exact (Hlook i _ Ho)|].
  destruct (detailed_heap_registered w ps objs hr2 i _ Ho)
    as (j & [r T'] & Hij & Hj & Hid & Hreg & Hlast).
  simpl in Hid, Hreg, Hlast.
  exists r, T'. split; [exact Hreg|].
  split; [exact (Hlook j _ Hj)|].
  split; [done|]. split.
  - intros Hdet. destruct (Hback j _ Hj) as (d & Hdj & Hd2). simpl in Hd2.
    rewrite <- Hd2. apply (Hdet j d Hdj). by rewrite Hd2.
  - intros Hl.
    assert (j = i) as ->.
    { apply Hlast. intros j' o'' Hj' Hlt. destruct (Hback j' _ Hj') as (d & Hdj & Hd2).
      rewrite <- Hd2. by apply (Hl j' d). }
    by simplify_eq.
Qed.

End SerdeFacts.

(** * Further properties *)

(** ** Loops *)

Lemma visible_children_app phs1 phs2 :
  visible_children (phs1 ++ phs2) = visible_children phs1 ++ visible_children phs2.
Proof. unfold visible_children. by rewrite filter_app, fmap_app. Qed.

Lemma visible_children_inner phs :
  Forall (λ ph, "#inner" ∈ ph_tags ph) phs → visible_children phs = [].
Proof.
  unfold visible_children. induction 1 as [|ph phs Hin _ IH]; [done|].
  rewrite filter_cons. rewrite decide_False by (intros Hn; by apply Hn). done.
Qed.

Lemma visible_children_all phs :
  Forall (λ ph, "#inner" ∉ ph_tags ph) phs → visible_children phs = ph_child <$> phs.
Proof.
  unfold visible_children. induction 1 as [|ph phs Hin _ IH]; [done|].
  rewrite filter_cons, decide_True by done. rewrite !fmap_cons. by f_equal.
Qed.

Section ReadMore.

Variable copy_id : Z → Z.
Variable worker_init_plan : nat → option (option nat).

Lemma copies_inner C phs :
  Forall (λ ph, "#inner" ∈ ph_tags ph) (copies copy_id C phs).
Proof.
  apply Forall_lookup. intros i ph. unfold copies. rewrite list_lookup_imap.
  destruct (phs !! i) as [ph0|]; simpl; [|done]. intros [= <-]. simpl.
  unfold promotion_tags. set_solver.
Qed.

(** [read] when nothing is promoted. *)
Lemma read_plain_run s h st ip phs :
  hp_states h !! s = Some st →
  owner_init_plan worker_init_plan (owner st) h = Ok ip h →
  ancestor_of h s ip = None →
  (∀ parent, ip = Some parent → is_Some (hp_plans h !! parent)) →
  Forall2 (λ p ph, hp_placeholders h !! p = Some ph) (state_placeholders st) phs →
  read copy_id worker_init_plan s h = Ok (visible_children phs) h.
Proof.
  intros Hs Hip Hanc Hplan Hphs. rewrite read_run, Hs, Hip.
  assert (read_promotion copy_id s st ip h = Ok tt h) as Hprom.
  { unfold read_promotion, ancestor_of in *. destruct ip as [parent|]; [|done].
    destruct (Hplan parent eq_refl) as [PP HPP]. simpl in Hanc. rewrite HPP in Hanc.
    simpl in Hanc. unfold load_plan. rewrite bind_run, load_run, HPP.
    by destruct (bool_decide (state PP ≠ s)). }
  rewrite bind_run, Hprom, bind_run. unfold load_state. rewrite load_run, Hs.
  by apply read_values_ok.
Qed.

(** Extra X1: when the owner's [init_plan] is not set, or the ancestor's
    State is the State itself, [read] promotes nothing: it returns the
    children of the placeholders that do not carry "#inner" and leaves
    the store as it was. *)
Theorem read_without_ancestor s h st ip phs :
  hp_states h !! s = Some st →
  owner_init_plan worker_init_plan (owner st) h = Ok ip h →
  (ip = None ∨ ∃ parent PP, ip = Some parent ∧ hp_plans h !! parent = Some PP ∧ state PP = s) →
  Forall2 (λ p ph, hp_placeholders h !! p = Some ph) (state_placeholders st) phs →
  read copy_id worker_init_plan s h = Ok (visible_children phs) h.
Proof.
  intros Hs Hip Hcase Hphs. apply (read_plain_run s h st ip phs); try done.
  - destruct Hcase as [->|(parent & PP & -> & HPP & Hst)]; [done|].
    unfold ancestor_of. simpl. rewrite HPP. simpl.
    by rewrite bool_decide_eq_false_2 by (intros Hne; by apply Hne).
  - intros parent ->. destruct Hcase as [?|(parent' & PP & [= <-] & HPP & _)]; [done|eauto].
Qed.

(** Extra X2: whenever [read] returns, with or without a promotion, the
    list it returns is the list of the children, as they were before the
    call, of the State's placeholders that do not carry "#inner"; when no
    placeholder carries that tag it is the list [tensors] returns. *)
Theorem read_returns_visible s h st phs vs h' :
  hp_states h !! s = Some st →
  Forall2 (λ p ph, hp_placeholders h !! p = Some ph) (state_placeholders st) phs →
  read copy_id worker_init_plan s h = Ok vs h' →
  vs = visible_children phs ∧
  (Forall (λ ph, "#inner" ∉ ph_tags ph) phs → tensors s h = Ok vs h).
Proof.
  intros Hs Hphs Hread.
  assert (vs = visible_children phs) as ->.
  { rewrite read_run, Hs, owner_init_plan_run in Hread.
    assert (∀ ip, (read_promotion copy_id s st ip ≫= λ _,
                   load_state s ≫= λ st0, read_values (state_placeholders st0)) h
                  = Ok vs h' → vs = visible_children phs) as Htail.
    { intros ip. rewrite bind_run.
      pose proof (read_promotion_frame copy_id s st ip h) as Hfr.
      destruct (read_promotion copy_id s st ip h) as [[] h1|e h1]; [|done].
      simpl in Hfr.
      assert (hp_states h1 !! s = Some st ∧
              hp_placeholders h `prefix_of` hp_placeholders h1) as [Hs1 Hpre].
      { destruct (ancestor_of h s ip) as [[parent sa]|].
        - destruct Hfr as [Hne Hfr]. split; [|by destruct Hfr].
          by rewrite (frame_states _ _ _ _ Hfr).
        - by subst h1. }
      rewrite bind_run. unfold load_state. rewrite load_run, Hs1.
      rewrite (read_values_ok _ phs).
      - by intros [= <- _].
      - eapply Forall2_impl; [exact Hphs|]. intros p ph Hp.
        simpl in Hp. by eapply prefix_lookup_Some. }
    destruct (owner st) as [pl|w].
    - destruct (hp_plans h !! pl); [by eapply Htail|done].
    - destruct (worker_init_plan w); [by eapply Htail|done]. }
  split; [done|]. intros Hall. rewrite (visible_children_all _ Hall).
  unfold tensors, load_state. rewrite bind_run, load_run, Hs. by apply tensors_run.
Qed.

Lemma copies_located C phs (pre : list PlaceHolder) :
  Forall2 (λ p ph, (pre ++ copies copy_id C phs) !! p = Some ph)
          (seq (length pre) (length phs)) (copies copy_id C phs).
Proof.
  apply Forall2_lookup. intros i. unfold copies.
  rewrite list_lookup_imap. destruct (phs !! i) as [ph|] eqn:Hi; simpl.
  - rewrite (lookup_seq_lt _ _ _ (lookup_lt_Some _ _ _ Hi)). constructor.
    rewrite lookup_app_r by lia.
    replace (length pre + i - length pre) with i by lia.
    by rewrite list_lookup_imap, Hi.
  - rewrite lookup_seq_ge by (by apply lookup_ge_None). constructor.
Qed.

(** Extra X3: the error path of the promotion. When the placeholders of
    a nested State (owned by a plan or by a worker) are bound up to some
    position and the next one holds
    no value, [read] raises AttributeError at line 70, after the copy of
    that placeholder was appended to the ancestor's sequence: the
    ancestor is left with one more placeholder than its counter and its
    map account for, the copy made last carries the position tag of a
    count that was never reached and holds no value, and the placeholders
    after it were not visited. *)
Theorem read_raises_on_unbound s h st parent PP pst ps1 ds1 p ph ps2 :
  nested worker_init_plan h s st parent PP pst →
  state_placeholders st = ps1 ++ p :: ps2 →
  Forall2 (λ p d, resolve h p = Some d) ps1 ds1 →
  hp_placeholders h !! p = Some ph →
  ph_child ph = None →
  ∃ h' PP' pst',
    read copy_id worker_init_plan s h = Raise AttributeError h' ∧
    hp_plans h' !! parent = Some PP' ∧
    var_count PP' = (var_count PP + Z.of_nat (length ps1))%Z ∧
    placeholders PP'
      = register_copies (placeholders PP) (length (hp_placeholders h)) (t_id <$> ds1.*2) ∧
    hp_states h' !! state PP = Some pst' ∧
    state_placeholders pst'
      = state_placeholders pst ++ seq (length (hp_placeholders h)) (length ps1 + 1) ∧
    length (hp_placeholders h') = length (hp_placeholders h) + length ps1 + 1 ∧
    hp_placeholders h' !! (length (hp_placeholders h) + length ps1)
      = Some (mkPlaceHolder (copy_id (ph_id ph))
                (promotion_tags (var_count PP + Z.of_nat (length ps1) + 1)) None) ∧
    hp_states h' !! s = Some st ∧
    (∀ q phq, hp_placeholders h !! q = Some phq → hp_placeholders h' !! q = Some phq).
Proof.
  intros [Hs Hown HPP Hne Hpst] Hsplit Hres Hp Hc.
  pose proof (Forall2_length _ _ _ Hres) as Hlen.
  set (h1 := promoted_all copy_id parent PP pst ds1 h).
  set (PP1 := mkPlan (init_plan PP) (state PP)
                (register_copies (placeholders PP) (length (hp_placeholders h))
                   (t_id <$> ds1.*2))
                (var_count PP + Z.of_nat (length ds1))).
  set (pst1 := mkState (owner pst)
                 (state_placeholders pst ++ seq (length (hp_placeholders h)) (length ds1))).
  assert (hp_plans h1 !! parent = Some PP1) as HPP1.
  { apply list_lookup_insert_eq. by eapply lookup_lt_Some. }
  assert (hp_states h1 !! state PP1 = Some pst1) as Hpst1.
  { apply list_lookup_insert_eq. by eapply lookup_lt_Some. }
  assert (hp_placeholders h1 !! p = Some ph) as Hp1 by (by apply lookup_app_l_Some).
  exists (appended_heap copy_id PP1 pst1 ph h1), PP1,
    (mkState (owner pst) (state_placeholders pst1 ++ [length (hp_placeholders h1)])).
  split.
  { rewrite read_run, Hs, Hown.
    rewrite bind_run. unfold read_promotion, load_plan.
    rewrite bind_run, load_run, HPP. rewrite bool_decide_eq_true_2 by done.
    rewrite Hsplit, for_each_app.
    rewrite (promote_all_ok copy_id parent ps1 ds1 h PP pst Hres HPP Hpst).
    fold h1. cbn [for_each]. rewrite bind_run, promote_run, Hp1, HPP1, Hpst1, Hc. done. }
  unfold appended_heap, copied_heap. simpl.
  split; [done|]. split; [by rewrite Hlen|]. split; [done|].
  split.
  { rewrite list_insert_insert_eq. apply list_lookup_insert_eq. by eapply lookup_lt_Some. }
  split.
  { rewrite <- app_assoc. f_equal. rewrite seq_app, Hlen, length_app. simpl.
    do 2 f_equal. unfold copies. rewrite length_imap, length_fmap. lia. }
  split.
  { rewrite !length_app. unfold copies. rewrite length_imap, length_fmap. simpl. lia. }
  split.
  { assert (length (hp_placeholders h) + length ps1
            = length (hp_placeholders h ++ copies copy_id (var_count PP) ds1.*1)) as ->.
    { rewrite length_app. unfold copies. rewrite length_imap, length_fmap. lia. }
    rewrite lookup_snoc_new, Hc, Hlen. done. }
  split.
  { rewrite list_insert_insert_eq. by rewrite list_lookup_insert_ne. }
  intros q phq Hq. apply lookup_app_l_Some. by apply lookup_app_l_Some.
Qed.

(** Extra X4: the promoted copies are hidden from [read] and shown by
    [tensors]. After a promotion from an inner State (owned by a plan
    or by a worker), [read] on the ancestor's State (whose owner has no [init_plan]) returns what it
    returned before: the copies carry "#inner" and are filtered out;
    [tensors] on the ancestor's State returns its former children
    followed by the children of the inner State's placeholders. *)
Theorem read_ancestor_hides_promoted s h st parent PP pst ds phsA :
  nested worker_init_plan h s st parent PP pst →
  Forall2 (λ p d, resolve h p = Some d) (state_placeholders st) ds →
  Forall2 (λ p ph, hp_placeholders h !! p = Some ph) (state_placeholders pst) phsA →
  owner_init_plan worker_init_plan (owner pst) h = Ok None h →
  ∃ vs h1,
    read copy_id worker_init_plan s h = Ok vs h1 ∧
    read copy_id worker_init_plan (state PP) h = Ok (visible_children phsA) h ∧
    read copy_id worker_init_plan (state PP) h1 = Ok (visible_children phsA) h1 ∧
    tensors (state PP) h1 = Ok ((ph_child <$> phsA) ++ (ph_child <$> ds.*1)) h1.
Proof.
  intros Hn Hres HphsA Hown.
  pose proof Hn as [Hs _ HPP Hne Hpst].
  exists (visible_children ds.*1), (promoted_all copy_id parent PP pst ds h).
  split; [exact (read_promote_ok copy_id worker_init_plan _ _ _ _ _ _ _ Hn Hres)|].
  split.
  { by apply (read_plain_run (state PP) h pst None phsA). }
  set (h1 := promoted_all copy_id parent PP pst ds h).
  set (pst1 := mkState (owner pst)
                 (state_placeholders pst ++ seq (length (hp_placeholders h)) (length ds))).
  assert (hp_states h1 !! state PP = Some pst1) as Hpst1.
  { apply list_lookup_insert_eq. by eapply lookup_lt_Some. }
  assert (Forall2 (λ p ph, hp_placeholders h1 !! p = Some ph) (state_placeholders pst1)
            (phsA ++ copies copy_id (var_count PP) ds.*1)) as Hall.
  { apply Forall2_app.
    - eapply Forall2_impl; [exact HphsA|]. intros q phq Hq. simpl in *.
      by apply lookup_app_l_Some.
    - replace (length ds) with (length ds.*1) by apply length_fmap.
      apply copies_located. }
  split.
  - replace (visible_children phsA)
      with (visible_children (phsA ++ copies copy_id (var_count PP) ds.*1)).
    2:{ rewrite visible_children_app, (visible_children_inner (copies _ _ _)).
        - apply app_nil_r.
        - apply copies_inner. }
    apply (read_plain_run (state PP) h1 pst1 None); try done.
    rewrite owner_init_plan_run in Hown |- *. simpl.
    destruct (owner pst) as [pl|w]; [|destruct (worker_init_plan w); by simplify_eq].
    destruct (decide (pl = parent)) as [->|Hpl].
    + rewrite HPP in Hown. subst h1. unfold promoted_all. simpl.
      rewrite list_lookup_insert_eq by (by eapply lookup_lt_Some). simpl.
      injection Hown as Hown. by rewrite Hown.
    + subst h1. unfold promoted_all. simpl. rewrite list_lookup_insert_ne by done.
      destruct (hp_plans h !! pl); [|done]. injection Hown as Hown. by rewrite Hown.
  - assert ((ph_child <$> phsA) ++ (ph_child <$> ds.*1)
            = ph_child <$> (phsA ++ copies copy_id (var_count PP) ds.*1)) as ->.
    { rewrite fmap_app. f_equal. unfold copies. apply list_eq. intros i.
      rewrite !list_lookup_fmap, list_lookup_imap, list_lookup_fmap.
      by destruct (ds !! i). }
    unfold tensors, load_state. rewrite bind_run, load_run, Hpst1.
    by apply tensors_run.
Qed.

End ReadMore.

(** ** [set_], twice and in any order *)

Lemma rebind_all_lookup d ps l p ph :
  l !! p = Some ph →
  rebind_all d ps l !! p = Some (if decide (p ∈ ps) then rebind d ph else ph).
Proof. intros Hp. unfold rebind_all. by rewrite list_lookup_imap, Hp. Qed.

Lemma rebind_all_length d ps l : length (rebind_all d ps l) = length l.
Proof. apply length_imap. Qed.

Lemma rebind_all_located d ps l ps0 phs :
  ps0 ⊆ ps →
  Forall2 (λ p ph, l !! p = Some ph) ps0 phs →
  Forall2 (λ p ph, rebind_all d ps l !! p = Some ph) ps0 (rebind d <$> phs).
Proof.
  intros Hsub Hphs. induction Hphs as [|p ph ps0 phs Hp _ IH]; [constructor|].
  rewrite fmap_cons. constructor.
  - rewrite (rebind_all_lookup _ _ _ _ _ Hp). rewrite decide_True; [done|].
    apply Hsub. by left.
  - apply IH. intros q Hq. apply Hsub. by right.
Qed.

Lemma rebind_rebind d1 d2 ph : rebind d2 (rebind d1 ph) = rebind (d2 ∪ d1) ph.
Proof.
  unfold rebind, rebound.
  destruct (d2 !! ph_id ph) as [v2|] eqn:H2.
  - rewrite (lookup_union_Some_l _ _ _ _ H2).
    destruct (d1 !! ph_id ph); simpl; by rewrite H2.
  - rewrite (lookup_union_r _ _ _ H2).
    destruct (d1 !! ph_id ph); simpl; by rewrite H2.
Qed.

Lemma rebind_all_compose d1 d2 ps l :
  rebind_all d2 ps (rebind_all d1 ps l) = rebind_all (d2 ∪ d1) ps l.
Proof.
  apply list_eq. intros p. destruct (l !! p) as [ph|] eqn:Hp.
  - rewrite (rebind_all_lookup _ _ _ _ _ (rebind_all_lookup d1 ps _ _ _ Hp)).
    rewrite (rebind_all_lookup _ _ _ _ _ Hp).
    destruct (decide (p ∈ ps)); [by rewrite rebind_rebind|done].
  - rewrite !(proj2 (lookup_ge_None _ _)); [done| |];
      rewrite !rebind_all_length; by apply lookup_ge_None.
Qed.

Lemma set_items_run s st items h :
  NoDup items.*1 →
  hp_states h !! s = Some st →
  Forall (λ p, is_Some (hp_placeholders h !! p)) (state_placeholders st) →
  set_items s items h
  = Ok tt (with_placeholders (rebind_all (list_to_map items) (state_placeholders st)) h).
Proof.
  intros Hnd Hs Hvalid.
  destruct (set_items_spec s st items Hnd h Hs Hvalid) as (l' & -> & Hlen & Hpt).
  unfold with_placeholders. do 2 f_equal.
  apply list_eq. intros p. destruct (hp_placeholders h !! p) as [ph|] eqn:Hp.
  - by rewrite (Hpt _ _ Hp), (rebind_all_lookup _ _ _ _ _ Hp).
  - rewrite !(proj2 (lookup_ge_None _ _)); [done| |].
    + rewrite rebind_all_length. by apply lookup_ge_None.
    + rewrite Hlen. by apply lookup_ge_None.
Qed.

Lemma set_run s st d h :
  hp_states h !! s = Some st →
  Forall (λ p, is_Some (hp_placeholders h !! p)) (state_placeholders st) →
  set_ s d h = Ok tt (with_placeholders (rebind_all d (state_placeholders st)) h).
Proof.
  intros Hs Hvalid. unfold set_.
  rewrite (set_items_run s st _ h (NoDup_fst_map_to_list _) Hs Hvalid).
  by rewrite list_to_map_to_list.
Qed.

Lemma located_valid (l : list PlaceHolder) ps phs :
  Forall2 (λ p ph, l !! p = Some ph) ps phs → Forall (λ p, is_Some (l !! p)) ps.
Proof. induction 1; constructor; eauto. Qed.

Lemma rebind_child d ph :
  ph_child (rebind d ph) = from_option Some (ph_child ph) (d !! ph_id ph).
Proof. unfold rebind. by destruct (d !! ph_id ph). Qed.

(** Extra X5: two calls of [set_] on a State amount to one call with the
    union of the two dictionaries in which the entries of the second
    take precedence; in particular a call repeated with the same
    dictionary changes nothing more. *)
Theorem set_twice s st d1 d2 h :
  hp_states h !! s = Some st →
  Forall (λ p, is_Some (hp_placeholders h !! p)) (state_placeholders st) →
  (set_ s d1 ≫= λ _, set_ s d2) h = set_ s (d2 ∪ d1) h ∧
  (set_ s d1 ≫= λ _, set_ s d1) h = set_ s d1 h.
Proof.
  intros Hs Hvalid.
  assert (∀ d d', (set_ s d ≫= λ _, set_ s d') h = set_ s (d' ∪ d) h) as Hcomp.
  { intros d d'. rewrite bind_run, (set_run s st d h Hs Hvalid). cbv beta iota.
    rewrite (set_run s st d' (with_placeholders (rebind_all d (state_placeholders st)) h) Hs).
    - rewrite (set_run s st (d' ∪ d) h Hs Hvalid).
      unfold with_placeholders. simpl. by rewrite rebind_all_compose.
    - simpl. apply (valid_same_length (hp_placeholders h)); [|done].
      apply rebind_all_length. }
  split; [apply Hcomp|]. rewrite Hcomp. by rewrite (idemp_L (∪)).
Qed.

(** Extra X6: the effect of [set_] does not depend on the order in which
    the dictionary yields its entries: the loop over the items gives the
    same store for every arrangement of the same entries. *)
Theorem set_items_any_order s st items items' h :
  NoDup items.*1 →
  items ≡ₚ items' →
  hp_states h !! s = Some st →
  Forall (λ p, is_Some (hp_placeholders h !! p)) (state_placeholders st) →
  set_items s items h = set_items s items' h.
Proof.
  intros Hnd Hperm Hs Hvalid.
  assert (NoDup items'.*1) as Hnd' by (by rewrite <- Hperm).
  rewrite (set_items_run s st items h Hnd Hs Hvalid).
  rewrite (set_items_run s st items' h Hnd' Hs Hvalid).
  by rewrite (list_to_map_proper items items' Hnd Hperm).
Qed.

(** Extra X7: after [set_], [tensors] returns, position by position, the
    value the dictionary maps the placeholder's id to, and the former
    child of a placeholder whose id is not a key; when every id of the
    State is a key the list is read off the dictionary alone. *)
Theorem set_then_tensors s st d h phs :
  hp_states h !! s = Some st →
  Forall2 (λ p ph, hp_placeholders h !! p = Some ph) (state_placeholders st) phs →
  ∃ h',
    set_ s d h = Ok tt h' ∧
    tensors s h'
      = Ok ((λ ph, from_option Some (ph_child ph) (d !! ph_id ph)) <$> phs) h' ∧
    (Forall (λ ph, ph_id ph ∈ dom d) phs →
     tensors s h' = Ok ((λ ph, d !! ph_id ph) <$> phs) h').
Proof.
  intros Hs Hphs. eexists. split.
  { apply (set_run s st d h Hs). by eapply located_valid. }
  set (h' := with_placeholders _ h).
  assert (tensors s h'
          = Ok ((λ ph, from_option Some (ph_child ph) (d !! ph_id ph)) <$> phs) h') as Hrun.
  { assert ((λ ph, from_option Some (ph_child ph) (d !! ph_id ph)) <$> phs
            = ph_child <$> (rebind d <$> phs)) as ->.
    { rewrite <- list_fmap_compose. apply list_fmap_ext. intros i ph _. simpl.
      by rewrite rebind_child. }
    unfold tensors, load_state. rewrite bind_run, load_run. subst h'. simpl. rewrite Hs.
    apply tensors_run. simpl. by apply rebind_all_located. }
  split; [done|]. intros Hkeys. rewrite Hrun. f_equal.
  apply list_fmap_ext. intros i ph Hi.
  rewrite Forall_lookup in Hkeys. apply Hkeys in Hi.
  apply elem_of_dom in Hi as [v Hv]. by rewrite Hv.
Qed.

(** ** [copy] shares the placeholders *)

(** Extra X8: [copy] returns a new State whose sequence holds the same
    placeholder objects: a [set_] on the copy rebinds the placeholders of
    the original too, so that [tensors] returns the same list, with the
    new values, on both. *)
Theorem copy_shares_placeholders s st d h phs :
  hp_states h !! s = Some st →
  Forall2 (λ p ph, hp_placeholders h !! p = Some ph) (state_placeholders st) phs →
  ∃ s' h1 h2 vs,
    copy s h = Ok s' h1 ∧
    s' ≠ s ∧
    hp_states h1 !! s' = Some st ∧
    hp_placeholders h1 = hp_placeholders h ∧
    set_ s' d h1 = Ok tt h2 ∧
    vs = (λ ph, from_option Some (ph_child ph) (d !! ph_id ph)) <$> phs ∧
    tensors s' h2 = Ok vs h2 ∧
    tensors s h2 = Ok vs h2.
Proof.
  intros Hs Hphs. destruct (copy_shallow s st h Hs) as [Hcopy Hne].
  set (h1 := with_states (λ l, l ++ [st]) h) in *.
  assert (hp_states h1 !! length (hp_states h) = Some st) as Hs1 by apply lookup_snoc_new.
  assert (hp_states h1 !! s = Some st) as Hs1' by (by apply lookup_app_l_Some).
  eexists _, h1, _, _. split; [exact Hcopy|]. split; [done|].
  split; [done|]. split; [done|].
  split. { apply (set_run _ st d h1 Hs1). by eapply located_valid. }
  split; [done|].
  set (h2 := with_placeholders _ h1).
  assert ((λ ph, from_option Some (ph_child ph) (d !! ph_id ph)) <$> phs
          = ph_child <$> (rebind d <$> phs)) as ->.
  { rewrite <- list_fmap_compose. apply list_fmap_ext. intros i ph _. simpl.
    by rewrite rebind_child. }
  assert (∀ s0, hp_states h1 !! s0 = Some st →
            tensors s0 h2 = Ok (ph_child <$> (rebind d <$> phs)) h2) as Hboth.
  { intros s0 Hs0. unfold tensors, load_state. rewrite bind_run, load_run.
    change (hp_states h2) with (hp_states h1). rewrite Hs0.
    apply tensors_run.
    apply (rebind_all_located d (state_placeholders st) (hp_placeholders h)); done. }
  split; by apply Hboth.
Qed.

(** ** More on [clone_state_dict] *)

Lemma register_copies_last m n0 ids i k :
  ids !! i = Some k →
  (∀ j, i < j → ids !! j ≠ Some k) →
  register_copies m n0 ids !! k = Some (n0 + i).
Proof.
  revert m n0 i. induction ids as [|k' ids IH]; intros m n0 i Hi Hlast; [done|].
  destruct i as [|i]; simpl in *.
  - simplify_eq. rewrite register_copies_notin.
    + rewrite lookup_insert_eq. f_equal. lia.
    + intros Hin. apply list_elem_of_lookup in Hin as [j Hj].
      apply (Hlast (S j)); [lia|done].
  - rewrite (IH _ _ i); [f_equal; lia|done|].
    intros j Hj. apply (Hlast (S j)). lia.
Qed.

Lemma register_copies_from m n0 ids k c :
  register_copies m n0 ids !! k = Some c → m !! k = Some c ∨ n0 ≤ c.
Proof.
  revert m n0. induction ids as [|k' ids IH]; intros m n0 Hc; [by left|].
  simpl in Hc. destruct (IH _ _ Hc) as [Hin|Hle]; [|right; lia].
  destruct (decide (k = k')) as [->|Hne].
  - rewrite lookup_insert_eq in Hin. right. simplify_eq. lia.
  - rewrite lookup_insert_ne in Hin by done. by left.
Qed.

Lemma register_copies_at_least m n0 ids j k :
  ids !! j = Some k → ∃ c, register_copies m n0 ids !! k = Some c ∧ n0 + j ≤ c.
Proof.
  revert m n0 j. induction ids as [|k' ids IH]; intros m n0 j Hj; [done|].
  destruct j as [|j]; simpl in *.
  - simplify_eq.
    assert (is_Some (register_copies (<[k:=n0]> m) (S n0) ids !! k)) as [c Hc].
    { apply elem_of_dom. rewrite register_copies_dom, dom_insert_L. set_solver. }
    exists c. split; [done|].
    destruct (register_copies_from _ _ _ _ _ Hc) as [Hin|Hle]; [|lia].
    rewrite lookup_insert_eq in Hin. simplify_eq. lia.
  - destruct (IH (<[k':=n0]> m) (S n0) j Hj) as (c & Hc & Hle).
    exists c. split; [done|lia].
Qed.

Lemma with_tensors_nil h : with_tensors (λ l, l ++ []) h = h.
Proof. destruct h. unfold with_tensors. simpl. by rewrite app_nil_r. Qed.

(** The comprehension of [clone_state_dict] over a sequence whose first
    part is bound. *)
Lemma clone_entries_app (ps1 : list nat) :
  ∀ (ds1 : list (PlaceHolder * Tensor)) (rest : list nat) (h : heap) (d : gmap Z nat),
    Forall2 (λ p d, resolve h p = Some d) ps1 ds1 →
    clone_entries (ps1 ++ rest) d h
    = clone_entries rest (register_copies d (length (hp_tensors h)) (ph_id <$> ds1.*1))
        (with_tensors (λ l, l ++ ds1.*2) h).
Proof.
  induction ps1 as [|p ps1 IH]; intros ds1 rest h d Hres.
  - apply Forall2_nil_inv_l in Hres as ->. simpl. by rewrite with_tensors_nil.
  - apply Forall2_cons_inv_l in Hres as ([ph T] & ds' & Hp & Hres & ->).
    apply resolve_Some in Hp as (Hp & t & Hc & Ht).
    cbn [app clone_entries]. rewrite bind_run. unfold load_placeholder at 1.
    rewrite load_run, Hp, Hc. rewrite bind_run.
    unfold Tensor_clone, load_tensor, alloc_tensor. rewrite bind_run, load_run, Ht.
    rewrite (IH ds').
    + unfold with_tensors. simpl. rewrite length_app, <- app_assoc. simpl.
      by replace (length (hp_tensors h) + 1) with (S (length (hp_tensors h))) by lia.
    + eapply Forall2_impl; [exact Hres|]. intros q dq. apply resolve_grow; [done|].
      intros t0 T0 Ht0. simpl. by apply lookup_app_l_Some.
Qed.

(** Extra X9: [clone_state_dict] on a State whose placeholders are bound
    up to some position, the next one holding no value, raises
    AttributeError (the [clone] of None) and returns no dictionary; the
    values before that position were cloned already, those clones are
    new objects no placeholder refers to, and the placeholders and the
    States are as before. *)
Theorem clone_state_dict_raises_on_unbound s st h ps1 ds1 p ph ps2 :
  hp_states h !! s = Some st →
  state_placeholders st = ps1 ++ p :: ps2 →
  Forall2 (λ p d, resolve h p = Some d) ps1 ds1 →
  hp_placeholders h !! p = Some ph →
  ph_child ph = None →
  ∃ h',
    clone_state_dict s h = Raise AttributeError h' ∧
    hp_tensors h' = hp_tensors h ++ ds1.*2 ∧
    hp_placeholders h' = hp_placeholders h ∧
    hp_states h' = hp_states h ∧
    hp_plans h' = hp_plans h ∧
    hp_registry h' = hp_registry h.
Proof.
  intros Hs Hsplit Hres Hp Hc. exists (with_tensors (λ l, l ++ ds1.*2) h).
  split; [|done].
  rewrite (clone_state_dict_run _ _ _ Hs), Hsplit.
  rewrite (clone_entries_app _ _ _ _ _ Hres).
  cbn [clone_entries]. rewrite bind_run. unfold load_placeholder at 1.
  rewrite load_run. simpl. rewrite Hp, Hc. done.
Qed.

(** Extra X10: [clone_state_dict] followed by [set_] with the dictionary
    it returned (the ids of the placeholders pairwise distinct): every
    placeholder of the State is then bound to a new value object with
    the content of the value it was bound to, and keeps its id and tags;
    the former values are still in the store, unchanged. *)
Theorem clone_then_set s st h ds :
  hp_states h !! s = Some st →
  Forall2 (λ p d, resolve h p = Some d) (state_placeholders st) ds →
  NoDup (ph_id <$> ds.*1) →
  ∃ d h1 h2,
    clone_state_dict s h = Ok d h1 ∧
    set_ s d h1 = Ok tt h2 ∧
    (∀ t T, hp_tensors h !! t = Some T → hp_tensors h2 !! t = Some T) ∧
    ∀ i p ph T,
      state_placeholders st !! i = Some p →
      ds !! i = Some (ph, T) →
      ∃ c, resolve h2 p = Some (mkPlaceHolder (ph_id ph) (ph_tags ph) (Some c), T) ∧
           hp_tensors h !! c = None ∧
           ph_child ph ≠ Some c.
Proof.
  intros Hs Hres Hnd.
  set (d := register_copies ∅ (length (hp_tensors h)) (ph_id <$> ds.*1)).
  set (h1 := with_tensors (λ l, l ++ ds.*2) h).
  assert (clone_state_dict s h = Ok d h1) as Hclone.
  { rewrite (clone_state_dict_run _ _ _ Hs). by apply clone_entries_ok. }
  assert (Forall (λ p, is_Some (hp_placeholders h1 !! p)) (state_placeholders st)) as Hvalid.
  { apply (located_valid _ _ ds.*1). exact (resolve_placeholders h _ _ Hres). }
  exists d, h1, (with_placeholders (rebind_all d (state_placeholders st)) h1).
  split; [done|]. split; [by apply (set_run s st d h1 Hs)|].
  split. { intros t T Ht. simpl. by apply lookup_app_l_Some. }
  intros i p ph T Hi Hd.
  pose proof (Forall2_lookup_lr _ _ _ _ _ _ Hres Hi Hd) as Hp.
  apply resolve_Some in Hp as (Hp & t & Hc & Ht).
  exists (length (hp_tensors h) + i).
  assert (d !! ph_id ph = Some (length (hp_tensors h) + i)) as Hdi.
  { apply register_copies_lookup; [done|]. by rewrite !list_lookup_fmap, Hd. }
  split; [|split].
  - apply resolve_Some. split.
    + simpl. rewrite (rebind_all_lookup _ _ _ _ _ Hp).
      rewrite decide_True by (by eapply list_elem_of_lookup_2).
      unfold rebind. by rewrite Hdi.
    + eexists. split; [done|]. simpl. apply allocated_value.
      by rewrite list_lookup_fmap, Hd.
  - apply lookup_ge_None. lia.
  - apply lookup_lt_Some in Ht. intros Heq. simplify_eq. lia.
Qed.

(** Extra X11: [clone_state_dict] without the assumption of distinct
    ids. Every bound value is cloned, in placeholder order, but the
    dictionary has one entry per id: under an id that several
    placeholders carry it holds the clone made for the last of them, and
    the clones made for the earlier ones are not in the dictionary. *)
Theorem clone_state_dict_last_wins s st h ds :
  hp_states h !! s = Some st →
  Forall2 (λ p d, resolve h p = Some d) (state_placeholders st) ds →
  ∃ d h',
    clone_state_dict s h = Ok d h' ∧
    hp_tensors h' = hp_tensors h ++ ds.*2 ∧
    dom d = list_to_set (ph_id <$> ds.*1) ∧
    (∀ i ph T, ds !! i = Some (ph, T) →
       (∀ j d', i < j → ds !! j = Some d' → ph_id d'.1 ≠ ph_id ph) →
       d !! ph_id ph = Some (length (hp_tensors h) + i)) ∧
    (∀ i j di dj, i < j → ds !! i = Some di → ds !! j = Some dj →
       ph_id di.1 = ph_id dj.1 →
       d !! ph_id di.1 ≠ Some (length (hp_tensors h) + i)).
Proof.
  intros Hs Hres.
  exists (register_copies ∅ (length (hp_tensors h)) (ph_id <$> ds.*1)),
         (with_tensors (λ l, l ++ ds.*2) h).
  split.
  { rewrite (clone_state_dict_run _ _ _ Hs). by apply clone_entries_ok. }
  split; [done|].
  split; [by rewrite register_copies_dom, dom_empty_L, (left_id_L ∅ (∪))|].
  assert (∀ i ph T, ds !! i = Some (ph, T) →
            (∀ j d', i < j → ds !! j = Some d' → ph_id d'.1 ≠ ph_id ph) →
            register_copies ∅ (length (hp_tensors h)) (ph_id <$> ds.*1) !! ph_id ph
            = Some (length (hp_tensors h) + i)) as Hlast.
  { intros i ph T Hd Hl. apply register_copies_last.
    - by rewrite !list_lookup_fmap, Hd.
    - intros j Hj. rewrite !list_lookup_fmap.
      destruct (ds !! j) as [d'|] eqn:Hdj; simpl; [|done].
      intros [= Heq]. by apply (Hl j d'). }
  split; [exact Hlast|].
  intros i j di dj Hij Hdi Hdj Hid.
  destruct (register_copies_at_least ∅ (length (hp_tensors h)) (ph_id <$> ds.*1)
              j (ph_id dj.1)) as (c & Hc & Hle).
  { by rewrite !list_lookup_fmap, Hdj. }
  rewrite Hid, Hc. intros [= Heq]. lia.
Qed.

(** ** More on [simplify] and [detail] *)

Lemma load_placeholders_run (ps : list nat) (phs : list PlaceHolder) (h : heap) :
  Forall2 (λ p ph, hp_placeholders h !! p = Some ph) ps phs →
  for_collect load_placeholder ps h = Ok phs h.
Proof.
  intros Hphs. apply for_collect_pure.
  eapply Forall2_impl; [exact Hphs|]. intros p ph Hp. simpl in Hp.
  unfold load_placeholder. by rewrite load_run, Hp.
Qed.

Lemma load_values_run (phs : list PlaceHolder) (h : heap) :
  Forall (λ ph, ∀ t, ph_child ph = Some t → is_Some (hp_tensors h !! t)) phs →
  for_collect load_value (ph_child <$> phs) h = Ok (child_value h <$> phs) h.
Proof.
  intros Hok. apply for_collect_pure, Forall2_fmap, Forall_Forall2_diag.
  eapply Forall_impl; [exact Hok|]. intros ph Hph. simpl in Hph.
  unfold child_value, load_value. destruct (ph_child ph) as [t|]; [|done].
  destruct (Hph t eq_refl) as [T HT]. simpl.
  unfold load_tensor. by rewrite bind_run, load_run, HT.
Qed.

(** The placeholders of a detailed State whose placeholder objects are
    pairwise distinct and not more than the values: each is bound to the
    value of its position. *)
Lemma detailed_heap_placeholders w ps objs h phs :
  Forall2 (λ p ph, hp_placeholders h !! p = Some ph) ps phs →
  NoDup ps →
  length ps ≤ length objs →
  Forall2 (λ p ph, hp_placeholders (detailed_heap w ps objs h) !! p = Some ph)
          ps (zip_with rebound phs objs.*1).
Proof.
  intros Hphs Hnd Hlen. pose proof (Forall2_length _ _ _ Hphs) as Hl.
  apply Forall2_same_length_lookup_2.
  { rewrite length_zip_with, length_fmap. lia. }
  intros i p ph' Hp Hph'.
  apply lookup_zip_with_Some in Hph' as (ph & t & -> & Hph & Ht).
  simpl. apply (bind_positional_zip _ _ _ i); [done|done| |].
  - intros j Hij _ Hj. pose proof (NoDup_lookup _ _ _ _ Hnd Hp Hj). lia.
  - exact (Forall2_lookup_lr _ _ _ _ _ _ Hphs Hp Hph).
Qed.

Lemma detailed_heap_children w ps objs h phs :
  located h objs →
  length phs ≤ length objs →
  ph_child <$> zip_with rebound phs objs.*1 = Some <$> take (length phs) objs.*1 ∧
  child_value (detailed_heap w ps objs h) <$> zip_with rebound phs objs.*1
  = Some <$> take (length phs) objs.*2.
Proof.
  intros Hloc Hlen. unfold located in Hloc. rewrite Forall_lookup in Hloc.
  split; apply list_eq; intros i; rewrite !list_lookup_fmap, lookup_zip_with;
    destruct (phs !! i) as [ph|] eqn:Hi; simpl.
  - pose proof (lookup_lt_Some _ _ _ Hi) as Hlt.
    rewrite lookup_take_lt by done.
    destruct (lookup_lt_is_Some_2 objs i) as [o Ho]; [lia|].
    by rewrite list_lookup_fmap, Ho.
  - apply lookup_ge_None in Hi. by rewrite lookup_take_ge.
  - pose proof (lookup_lt_Some _ _ _ Hi) as Hlt.
    rewrite lookup_take_lt by done.
    destruct (lookup_lt_is_Some_2 objs i) as [o Ho]; [lia|].
    rewrite !list_lookup_fmap, Ho. simpl. unfold child_value. simpl.
    by rewrite (Hloc i o Ho).
  - apply lookup_ge_None in Hi. by rewrite lookup_take_ge.
Qed.

Section SerdeMore.

Variable wire : Type.
Variable serde_simplify_placeholders : nat → list PlaceHolder → wire.
Variable serde_simplify_values : nat → list (option Tensor) → wire.
Variable serde_detail_placeholders : nat → wire → M (list nat).
Variable serde_detail_values : nat → wire → M (list (option nat)).

(** Extra X12: [simplify] does not require the placeholders to hold a
    value. On every State it returns, leaves the store as it was, and
    hands the codec the placeholders and, position by position, the
    content of the bound value or None where no value is bound. *)
Theorem simplify_passes_unbound w s st h phs :
  hp_states h !! s = Some st →
  Forall2 (λ p ph, hp_placeholders h !! p = Some ph) (state_placeholders st) phs →
  Forall (λ ph, ∀ t, ph_child ph = Some t → is_Some (hp_tensors h !! t)) phs →
  simplify wire serde_simplify_placeholders serde_simplify_values w s h
  = Ok (serde_simplify_placeholders w phs,
        serde_simplify_values w (child_value h <$> phs)) h.
Proof.
  intros Hs Hphs Hok. unfold simplify.
  rewrite bind_run. unfold load_state at 1. rewrite load_run, Hs.
  rewrite bind_run, (load_placeholders_run _ _ _ Hphs).
  rewrite bind_run. unfold tensors at 1.
  rewrite bind_run. unfold load_state at 1. rewrite load_run, Hs.
  rewrite (tensors_run _ phs) by exact Hphs.
  by rewrite bind_run, (load_values_run _ _ Hok).
Qed.

(** Extra X13: when the codec raises on one of the two halves, [detail]
    raises the same exception and leaves the store as the codec left
    it: this happens before the first loop, so [detail] itself has
    registered nothing with the worker, bound no placeholder and
    created no State. *)
Theorem detail_rejected w a b h e h' :
  serde_detail_placeholders w a h = Raise e h' ∨
  (∃ ps h1, serde_detail_placeholders w a h = Ok ps h1 ∧
            serde_detail_values w b h1 = Raise e h') →
  detail wire serde_detail_placeholders serde_detail_values w (a, b) h = Raise e h'.
Proof.
  intros [Ha|(ps & h1 & Ha & Hb)]; unfold detail; cbn [fst snd].
  - by rewrite bind_run, Ha.
  - by rewrite bind_run, Ha, bind_run, Hb.
Qed.

(** Extra X14: what [detail] does itself, beyond what the codec did
    while detailing the two halves. It creates one object, the State it
    returns, at the end of the States; it changes no value, no plan and
    no State; the only placeholder objects it changes are those the
    codec returned, and of those it changes the binding only, not the
    id or the tags; in the registry it writes only entries of the
    receiving worker under the id of a detailed value. *)
Theorem detail_frame w a b h ps h1 objs h2 :
  serde_detail_placeholders w a h = Ok ps h1 →
  serde_detail_values w b h1 = Ok (elements objs None) h2 →
  located h2 objs →
  Forall (λ p, is_Some (hp_placeholders h2 !! p)) ps →
  ∃ s h',
    detail wire serde_detail_placeholders serde_detail_values w (a, b) h = Ok s h' ∧
    s = length (hp_states h2) ∧
    hp_states h' = hp_states h2 ++ [mkState (OwnerWorker w) ps] ∧
    hp_tensors h' = hp_tensors h2 ∧
    hp_plans h' = hp_plans h2 ∧
    length (hp_placeholders h') = length (hp_placeholders h2) ∧
    (∀ p, p ∉ ps → hp_placeholders h' !! p = hp_placeholders h2 !! p) ∧
    (∀ p ph, hp_placeholders h2 !! p = Some ph →
       ∃ c, hp_placeholders h' !! p = Some (mkPlaceHolder (ph_id ph) (ph_tags ph) c)) ∧
    (∀ w' k, w' ≠ w ∨ k ∉ t_id <$> objs.*2 →
       hp_registry h' !! (w', k) = hp_registry h2 !! (w', k)).
Proof.
  intros Ha Hb Hloc Hvalid.
  exists (length (hp_states h2)), (detailed_heap w ps objs h2).
  split; [exact (detail_run_ok _ _ _ w a b h ps h1 objs h2 Ha Hb Hloc Hvalid)|].
  simpl. split; [done|]. split; [done|]. split; [done|]. split; [done|].
  split; [apply bind_positional_length|].
  split.
  { intros p Hp. apply bind_positional_other. intros Hin. apply Hp.
    apply list_elem_of_fmap in Hin as ([p' t] & -> & Hin).
    apply list_elem_of_lookup in Hin as [i Hi].
    apply zip_lookup_Some in Hi as [Hpi _]. by eapply list_elem_of_lookup_2. }
  split; [intros p ph Hp; by apply bind_positional_keeps|].
  intros w' k Hother. apply register_values_other.
  intros o Ho [= -> ->]. destruct Hother as [?|Hk]; [done|].
  apply Hk. apply list_elem_of_fmap. exists o.2. split; [done|].
  apply list_elem_of_fmap. eauto.
Qed.

(** Extra X15: a State that [detail] built from pairwise distinct
    placeholder objects and at least as many value objects can be
    simplified again, for any worker: the codec is handed the
    placeholders, each bound to the value of its position, and the
    content of the values of those positions only. The values beyond
    the number of placeholders are not part of the State; they are in
    the worker's registry like every other detailed value. *)
Theorem detail_then_simplify w w' a b h ps h1 objs h2 phs :
  serde_detail_placeholders w a h = Ok ps h1 →
  serde_detail_values w b h1 = Ok (elements objs None) h2 →
  located h2 objs →
  Forall2 (λ p ph, hp_placeholders h2 !! p = Some ph) ps phs →
  NoDup ps →
  length ps ≤ length objs →
  ∃ s h',
    detail wire serde_detail_placeholders serde_detail_values w (a, b) h = Ok s h' ∧
    simplify wire serde_simplify_placeholders serde_simplify_values w' s h'
    = Ok (serde_simplify_placeholders w' (zip_with rebound phs objs.*1),
          serde_simplify_values w' (Some <$> take (length ps) objs.*2)) h' ∧
    tensors s h' = Ok (Some <$> take (length ps) objs.*1) h' ∧
    registered w objs (hp_registry h') ∧
    located h' objs.
Proof.
  intros Ha Hb Hloc Hphs Hnd Hlen.
  pose proof (Forall2_length _ _ _ Hphs) as Hl.
  assert (Forall (λ p, is_Some (hp_placeholders h2 !! p)) ps) as Hvalid.
  { clear -Hphs. induction Hphs; constructor; eauto. }
  exists (length (hp_states h2)), (detailed_heap w ps objs h2).
  split; [exact (detail_run_ok _ _ _ w a b h ps h1 objs h2 Ha Hb Hloc Hvalid)|].
  set (h' := detailed_heap w ps objs h2).
  pose proof (detailed_heap_placeholders w ps objs h2 phs Hphs Hnd Hlen) as Hphs'.
  fold h' in Hphs'.
  destruct (detailed_heap_children w ps objs h2 phs Hloc) as [Hch Hvals]; [lia|].
  fold h' in Hvals. rewrite <- Hl in Hch, Hvals.
  assert (hp_states h' !! length (hp_states h2) = Some (mkState (OwnerWorker w) ps)) as Hs.
  { apply detailed_heap_state. }
  assert (tensors (length (hp_states h2)) h'
          = Ok (Some <$> take (length ps) objs.*1) h') as Htensors.
  { unfold tensors, load_state. rewrite bind_run, load_run, Hs. cbn [state_placeholders].
    rewrite <- Hch. by apply tensors_run. }
  split; [|split; [exact Htensors|split; [apply detailed_heap_registered|exact Hloc]]].
  unfold simplify.
  rewrite bind_run. unfold load_state at 1. rewrite load_run, Hs. cbn [state_placeholders].
  rewrite bind_run, (load_placeholders_run _ _ _ Hphs').
  rewrite bind_run, Htensors, <- Hch.
  rewrite bind_run, load_values_run; [by rewrite Hvals|].
  apply Forall_lookup. intros i ph' Hi t Ht.
  apply lookup_zip_with_Some in Hi as (ph & t0 & -> & Hph & Ht0). simpl in Ht.
  simplify_eq. rewrite list_lookup_fmap in Ht0.
  destruct (objs !! i) as [o|] eqn:Ho; simplify_eq/=.
  unfold located in Hloc. rewrite Forall_lookup in Hloc. rewrite (Hloc i o Ho). eauto.
Qed.


End SerdeMore.

(** ** [get_] *)

Section GetFacts.

Variable Tensor_get_ : nat → M unit.

(** Extra X17: [get_] walks the list [tensors] returned before the loop
    started, and that list holds None for a placeholder without a
    value: when the placeholders are bound up to some position and the
    next one is not, [get_] calls the values' [get_] for the positions
    before it, in order, and then raises AttributeError; the values
    after that position are not reached, and what the calls made so far
    did to the store stays. *)
Theorem get_raises_on_unbound s st h phs1 ts1 ph phs2 h1 :
  hp_states h !! s = Some st →
  Forall2 (λ p ph, hp_placeholders h !! p = Some ph) (state_placeholders st)
          (phs1 ++ ph :: phs2) →
  ph_child <$> phs1 = Some <$> ts1 →
  ph_child ph = None →
  for_each Tensor_get_ ts1 h = Ok tt h1 →
  get_ Tensor_get_ s h = Raise AttributeError h1.
Proof.
  intros Hs Hphs Hts Hc Hgets. unfold get_.
  rewrite bind_run. unfold tensors, load_state. rewrite bind_run, load_run, Hs.
  rewrite (tensors_run _ (phs1 ++ ph :: phs2)) by exact Hphs.
  rewrite fmap_app, fmap_cons, Hts, Hc, for_each_app.
  assert (for_each (value_get_ Tensor_get_) (Some <$> ts1) h = Ok tt h1) as ->.
  { rewrite <- Hgets. clear. revert h. induction ts1 as [|t ts1 IH]; intros h; [done|].
    rewrite fmap_cons. cbn [for_each]. rewrite !bind_run. simpl.
    destruct (Tensor_get_ t h); [apply IH|done]. }
  done.
Qed.

End GetFacts.

(** * The claims on concrete stores *)

Lemma nested_h_unbound :
  nested (λ _, None) h_unbound 0 (mkState (OwnerPlan 0) [0]) 1 (mkPlan None 1 ∅ 5) (mkState (OwnerPlan 1) []).
Proof. by split. Qed.

Lemma nested_h_worker :
  nested init_plan_1 h_worker 0 (mkState (OwnerWorker 0) [0]) 1 (mkPlan None 1 ∅ 5)
         (mkState (OwnerPlan 1) []).
Proof. by split. Qed.

Lemma nested_h_bound :
  nested (λ _, None) h_bound 0 (mkState (OwnerPlan 0) [0]) 1 (mkPlan None 1 ∅ 5) (mkState (OwnerPlan 1) []).
Proof. by split. Qed.

(** Claim C1 as stated fails on an inner placeholder that holds no value:
    with K = 1 and C = 5 the call raises at the map registration (line 70)
    after the copy was appended (line 69); the counter still stands at 5,
    not at 6. *)
Lemma read_unbound_raises :
  nested (λ _, None) h_unbound 0 (mkState (OwnerPlan 0) [0]) 1 (mkPlan None 1 ∅ 5) (mkState (OwnerPlan 1) []) ∧
  ∃ h', read (λ i, i) (λ _, None) 0 h_unbound = Raise AttributeError h' ∧
        var_count <$> hp_plans h' !! 1 = Some 5%Z ∧
        state_placeholders <$> hp_states h' !! 1 = Some [1].
Proof. split; [exact nested_h_unbound|]. eexists. split; [vm_compute; reflexivity|]. done. Qed.

Lemma read_promotes_witness :
  (∃ vs h', read (λ i, i) (λ _, None) 0 h_bound = Ok vs h' ∧
            var_count <$> hp_plans h' !! 1 = Some 6%Z) ∧
  (∃ vs h', read (λ i, i) init_plan_1 0 h_worker = Ok vs h' ∧
            var_count <$> hp_plans h' !! 1 = Some 6%Z).
Proof.
  split.
  - destruct (read_promotes (λ i, i) (λ _, None) 0 h_bound _ 1 _ _
                [(mkPlaceHolder 10 ∅ (Some 0), mkTensor 7 [1; 2]%Z)] nested_h_bound)
      as (vs & h' & PP' & pst' & new & Hread & HPP' & _ & Hc & _).
    + repeat constructor.
    + exists vs, h'. split; [done|]. rewrite HPP'. simpl. by rewrite Hc.
  - destruct (read_promotes (λ i, i) init_plan_1 0 h_worker _ 1 _ _
                [(mkPlaceHolder 10 ∅ (Some 0), mkTensor 7 [1; 2]%Z)] nested_h_worker)
      as (vs & h' & PP' & pst' & new & Hread & HPP' & _ & Hc & _).
    + repeat constructor.
    + exists vs, h'. split; [done|]. rewrite HPP'. simpl. by rewrite Hc.
Defined.

(** Claim C3 as stated fails: the first [read] promotes the placeholder
    (a copy tagged "#inner", bound to the value at address 0, now sits in
    the ancestor's State), and the second [read] on the same inner State
    still returns that value. *)
Lemma second_read_returns_promoted :
  ∃ h1 h2,
    read (λ i, i) (λ _, None) 0 h_bound = Ok [Some 0] h1 ∧
    state_placeholders <$> hp_states h1 !! 1 = Some [1] ∧
    hp_placeholders h1 !! 1 = Some (mkPlaceHolder 10 {[ "#inner"; "#state"; "#6" ]} (Some 0)) ∧
    read (λ i, i) (λ _, None) 0 h1 = Ok [Some 0] h2.
Proof. eexists _, _. split; [vm_compute; reflexivity|]. by vm_compute. Qed.

Lemma read_twice_witness :
  ∃ h1 h2, read (λ i, i) init_plan_1 0 h_worker = Ok [Some 0] h1 ∧
           read (λ i, i) init_plan_1 0 h1 = Ok [Some 0] h2.
Proof.
  destruct (read_twice (λ i, i) init_plan_1 0 h_worker _ 1 _ _
              [(mkPlaceHolder 10 ∅ (Some 0), mkTensor 7 [1; 2]%Z)] nested_h_worker)
    as (vs & h1 & h2 & Hr1 & Hr2 & -> & _).
  - repeat constructor.
  - by exists h1, h2.
Defined.

(** Claim C6 at the failing input, a State whose placeholder holds no
    value: the claim, like the docstring of [tensors] ("Perform a check
    of consistency on the elements ids"), has the call fail there; the
    body has no check, and [tensors] returns a list, with [None] for
    that placeholder. *)
Lemma tensors_unbound_returns : tensors 0 h_unbound = Ok [None] h_unbound.
Proof. reflexivity. Qed.

Lemma tensors_returns_children_witness : tensors 0 h_bound = Ok [Some 0] h_bound.
Proof.
  apply (tensors_returns_children 0 h_bound (mkState (OwnerPlan 0) [0])
           [mkPlaceHolder 10 ∅ (Some 0)]).
  - reflexivity.
  - repeat constructor.
Defined.

Lemma read_repeated_witness :
  ∃ h' pst',
    read_n (λ i, i) init_plan_1 2 0 h_worker = Ok tt h' ∧
    hp_states h' !! 1 = Some pst' ∧
    length (state_placeholders pst') = 2.
Proof.
  destruct (read_repeated (λ i, i) init_plan_1 2 0 h_worker _ 1 _ _
              [(mkPlaceHolder 10 ∅ (Some 0), mkTensor 7 [1; 2]%Z)]
              ltac:(lia) nested_h_worker)
    as (h' & PP' & pst' & new & Hrun & _ & Hst & Hnew & Hlen & _).
  - repeat constructor.
  - repeat constructor. set_solver.
  - exists h', pst'. split; [done|]. split; [done|].
    rewrite Hnew, length_app, Hlen. reflexivity.
Defined.

Lemma set_rebinds_witness :
  ∃ h', set_ 0 {[ 10%Z := 2; 12%Z := 3 ]} h_ab = Ok tt h' ∧
        hp_placeholders h' !! 0 = Some (mkPlaceHolder 10 ∅ (Some 2)) ∧
        hp_placeholders h' !! 1 = Some (mkPlaceHolder 11 ∅ (Some 1)).
Proof.
  destruct (set_rebinds 0 (mkState (OwnerWorker 0) [0; 1]) {[ 10%Z := 2; 12%Z := 3 ]} h_ab)
    as (h' & Hrun & _ & _ & _ & _ & _ & Hpt).
  - reflexivity.
  - repeat constructor; by eexists.
  - exists h'. split; [done|]. split.
    + by rewrite (Hpt 0 (mkPlaceHolder 10 ∅ (Some 0))).
    + by rewrite (Hpt 1 (mkPlaceHolder 11 ∅ (Some 1))).
Defined.

Lemma clone_state_dict_independent_witness :
  ∃ d h' c, clone_state_dict 0 h_ab = Ok d h' ∧ d !! 10%Z = Some c ∧
            hp_tensors h' !! c = Some (mkTensor 7 [1]%Z) ∧
            hp_tensors h_ab !! c = None.
Proof.
  destruct (clone_state_dict_independent 0 (mkState (OwnerWorker 0) [0; 1]) h_ab
              [(mkPlaceHolder 10 ∅ (Some 0), mkTensor 7 [1]%Z);
               (mkPlaceHolder 11 ∅ (Some 1), mkTensor 8 [2]%Z)])
    as (d & h' & Hrun & _ & _ & _ & Hpt).
  - reflexivity.
  - repeat constructor.
  - repeat constructor; set_solver.
  - destruct (Hpt 0 _ _ eq_refl) as (c & Hd & Hc & Hfresh & _).
    by exists d, h', c.
Defined.




(** The codec of the examples, detailing into the empty store of a
    receiving worker what [simplify] made of the State of [h_ab]. *)
Lemma detail_simplify_roundtrip_witness :
  ∃ state_tuple s' h' st',
    toy_simplify 0 0 h_ab = Ok state_tuple h_ab ∧
    toy_detail 0 state_tuple h_empty = Ok s' h' ∧
    hp_states h' !! s' = Some st' ∧
    length (state_placeholders st') = 2.
Proof.
  destruct (detail_simplify_roundtrip toy_wire toy_simplify_placeholders
              toy_simplify_values toy_detail_placeholders toy_detail_values
              0 0 (mkState (OwnerWorker 0) [0; 1]) h_ab
              [(mkPlaceHolder 10 ∅ (Some 0), mkTensor 7 [1]%Z);
               (mkPlaceHolder 11 ∅ (Some 1), mkTensor 8 [2]%Z)])
    as (state_tuple & Hsimp & -> & Hdet).
  - reflexivity.
  - repeat constructor.
  - destruct (Hdet h_empty [0; 1]
                (with_placeholders (λ l, l ++ [mkPlaceHolder 10 ∅ (Some 0);
                                               mkPlaceHolder 11 ∅ (Some 1)]) h_empty)
                [(0, mkTensor 7 [1]%Z); (1, mkTensor 8 [2]%Z)]
                (with_tensors (λ l, l ++ [mkTensor 7 [1]%Z; mkTensor 8 [2]%Z])
                   (with_placeholders (λ l, l ++ [mkPlaceHolder 10 ∅ (Some 0);
                                                  mkPlaceHolder 11 ∅ (Some 1)]) h_empty)))
      as (s' & h' & st' & Hrun & Hst & _ & Hlen & _).
    + reflexivity.
    + repeat constructor; set_solver.
    + repeat constructor; by eexists.
    + reflexivity.
    + reflexivity.
    + repeat constructor.
    + done.
    + eexists _, s', h', st'. split; [exact Hsimp|]. by split.
Defined.

(** * The further properties on concrete stores *)

Lemma nested_h_mixed :
  nested (λ _, None) h_mixed 0 (mkState (OwnerPlan 0) [0; 1]) 1 (mkPlan None 1 ∅ 5)
         (mkState (OwnerPlan 1) [2]).
Proof. by split. Qed.

Lemma nested_h_outer :
  nested (λ _, None) h_outer 0 (mkState (OwnerPlan 0) [0]) 1 (mkPlan None 1 ∅ 5)
         (mkState (OwnerPlan 1) [1]).
Proof. by split. Qed.

Lemma read_without_ancestor_witness :
  read (λ i, i) (λ _, None) 1 h_outer
  = Ok (visible_children [mkPlaceHolder 12 ∅ (Some 1)]) h_outer.
Proof.
  apply (read_without_ancestor (λ i, i) (λ _, None) 1 h_outer
           (mkState (OwnerPlan 1) [1]) None [mkPlaceHolder 12 ∅ (Some 1)]).
  - reflexivity.
  - reflexivity.
  - by left.
  - repeat constructor.
Defined.

Lemma read_returns_visible_witness :
  ∃ h', read (λ i, i) (λ _, None) 0 h_outer = Ok [Some 0] h'.
Proof.
  destruct (read (λ i, i) (λ _, None) 0 h_outer) as [vs h'|e h'] eqn:Hread;
    [|by vm_compute in Hread].
  destruct (read_returns_visible (λ i, i) (λ _, None) 0 h_outer
              (mkState (OwnerPlan 0) [0]) [mkPlaceHolder 10 ∅ (Some 0)] vs h')
    as [-> _].
  - reflexivity.
  - repeat constructor.
  - exact Hread.
  - by exists h'.
Defined.

Lemma read_raises_on_unbound_witness :
  ∃ h' PP' pst',
    read (λ i, i) (λ _, None) 0 h_mixed = Raise AttributeError h' ∧
    hp_plans h' !! 1 = Some PP' ∧ var_count PP' = 6%Z ∧
    hp_states h' !! 1 = Some pst' ∧ state_placeholders pst' = [2; 3; 4].
Proof.
  destruct (read_raises_on_unbound (λ i, i) (λ _, None) 0 h_mixed _ 1 _ _
              [0] [(mkPlaceHolder 10 ∅ (Some 0), mkTensor 7 [1]%Z)]
              1 (mkPlaceHolder 11 ∅ None) [] nested_h_mixed)
    as (h' & PP' & pst' & Hrun & HPP & Hcount & _ & Hpst & Hseq & _).
  - reflexivity.
  - repeat constructor.
  - reflexivity.
  - reflexivity.
  - by exists h', PP', pst'.
Defined.

Lemma read_ancestor_hides_promoted_witness :
  ∃ vs h1,
    read (λ i, i) (λ _, None) 0 h_outer = Ok vs h1 ∧
    read (λ i, i) (λ _, None) 1 h1
      = Ok (visible_children [mkPlaceHolder 12 ∅ (Some 1)]) h1 ∧
    tensors 1 h1 = Ok [Some 1; Some 0] h1.
Proof.
  destruct (read_ancestor_hides_promoted (λ i, i) (λ _, None) 0 h_outer _ 1 _ _
              [(mkPlaceHolder 10 ∅ (Some 0), mkTensor 7 [1]%Z)]
              [mkPlaceHolder 12 ∅ (Some 1)] nested_h_outer)
    as (vs & h1 & Hr & _ & Hr1 & Ht).
  - repeat constructor.
  - repeat constructor.
  - reflexivity.
  - by exists vs, h1.
Defined.

Lemma h_ab_valid :
  Forall (λ p, is_Some (hp_placeholders h_ab !! p)) [0; 1].
Proof. repeat constructor; by eexists. Qed.

Lemma set_twice_witness :
  (set_ 0 {[ 10%Z := 2 ]} ≫= λ _, set_ 0 {[ 10%Z := 3; 11%Z := 2 ]}) h_ab
  = set_ 0 ({[ 10%Z := 3; 11%Z := 2 ]} ∪ {[ 10%Z := 2 ]}) h_ab.
Proof.
  apply (set_twice 0 (mkState (OwnerWorker 0) [0; 1]) {[ 10%Z := 2 ]}
           {[ 10%Z := 3; 11%Z := 2 ]} h_ab).
  - reflexivity.
  - exact h_ab_valid.
Defined.

Lemma set_items_any_order_witness :
  set_items 0 [(10%Z, 2); (11%Z, 3)] h_ab = set_items 0 [(11%Z, 3); (10%Z, 2)] h_ab.
Proof.
  apply (set_items_any_order 0 (mkState (OwnerWorker 0) [0; 1])).
  - repeat constructor; set_solver.
  - apply perm_swap.
  - reflexivity.
  - exact h_ab_valid.
Defined.

Lemma set_then_tensors_witness :
  ∃ h', set_ 0 {[ 10%Z := 2 ]} h_ab = Ok tt h' ∧ tensors 0 h' = Ok [Some 2; Some 1] h'.
Proof.
  destruct (set_then_tensors 0 (mkState (OwnerWorker 0) [0; 1]) {[ 10%Z := 2 ]} h_ab
              [mkPlaceHolder 10 ∅ (Some 0); mkPlaceHolder 11 ∅ (Some 1)])
    as (h' & Hset & Ht & _).
  - reflexivity.
  - repeat constructor.
  - by exists h'.
Defined.

Lemma copy_shares_placeholders_witness :
  ∃ s' h1 h2,
    copy 0 h_ab = Ok s' h1 ∧ s' ≠ 0 ∧
    set_ s' {[ 10%Z := 2 ]} h1 = Ok tt h2 ∧
    tensors 0 h2 = Ok [Some 2; Some 1] h2.
Proof.
  destruct (copy_shares_placeholders 0 (mkState (OwnerWorker 0) [0; 1]) {[ 10%Z := 2 ]} h_ab
              [mkPlaceHolder 10 ∅ (Some 0); mkPlaceHolder 11 ∅ (Some 1)])
    as (s' & h1 & h2 & vs & Hcopy & Hne & _ & _ & Hset & -> & _ & Ht).
  - reflexivity.
  - repeat constructor.
  - by exists s', h1, h2.
Defined.

Lemma clone_state_dict_raises_on_unbound_witness :
  ∃ h', clone_state_dict 0 h_half = Raise AttributeError h' ∧
        hp_tensors h' = [mkTensor 7 [1]%Z; mkTensor 7 [1]%Z].
Proof.
  destruct (clone_state_dict_raises_on_unbound 0 (mkState (OwnerWorker 0) [0; 1]) h_half
              [0] [(mkPlaceHolder 10 ∅ (Some 0), mkTensor 7 [1]%Z)]
              1 (mkPlaceHolder 11 ∅ None) [])
    as (h' & Hrun & Ht & _).
  - reflexivity.
  - reflexivity.
  - repeat constructor.
  - reflexivity.
  - reflexivity.
  - by exists h'.
Defined.

Lemma clone_then_set_witness :
  ∃ d h1 h2 c,
    clone_state_dict 0 h_ab = Ok d h1 ∧ set_ 0 d h1 = Ok tt h2 ∧
    resolve h2 0 = Some (mkPlaceHolder 10 ∅ (Some c), mkTensor 7 [1]%Z) ∧
    hp_tensors h_ab !! c = None.
Proof.
  destruct (clone_then_set 0 (mkState (OwnerWorker 0) [0; 1]) h_ab
              [(mkPlaceHolder 10 ∅ (Some 0), mkTensor 7 [1]%Z);
               (mkPlaceHolder 11 ∅ (Some 1), mkTensor 8 [2]%Z)])
    as (d & h1 & h2 & Hclone & Hset & _ & Hpt).
  - reflexivity.
  - repeat constructor.
  - repeat constructor; set_solver.
  - destruct (Hpt 0 0 _ _ eq_refl eq_refl) as (c & Hres & Hfresh & _).
    by exists d, h1, h2, c.
Defined.

Lemma clone_state_dict_last_wins_witness :
  ∃ d h', clone_state_dict 0 h_dup = Ok d h' ∧
          d !! 10%Z = Some 3 ∧ length (hp_tensors h') = 4.
Proof.
  destruct (clone_state_dict_last_wins 0 (mkState (OwnerWorker 0) [0; 1]) h_dup
              [(mkPlaceHolder 10 ∅ (Some 0), mkTensor 7 [1]%Z);
               (mkPlaceHolder 10 ∅ (Some 1), mkTensor 8 [2]%Z)])
    as (d & h' & Hrun & Ht & _ & Hlast & _).
  - reflexivity.
  - repeat constructor.
  - exists d, h'. split; [done|]. split.
    + apply (Hlast 1 (mkPlaceHolder 10 ∅ (Some 1)) (mkTensor 8 [2]%Z) eq_refl).
      intros [|[|j]] d' Hj Hd'; [lia|lia|done].
    + by rewrite Ht.
Defined.

Lemma simplify_passes_unbound_witness :
  toy_simplify 0 0 h_half
  = Ok (inl [mkPlaceHolder 10 ∅ (Some 0); mkPlaceHolder 11 ∅ None],
        inr [Some (mkTensor 7 [1]%Z); None]) h_half.
Proof.
  apply (simplify_passes_unbound toy_wire toy_simplify_placeholders toy_simplify_values
           0 0 (mkState (OwnerWorker 0) [0; 1]) h_half
           [mkPlaceHolder 10 ∅ (Some 0); mkPlaceHolder 11 ∅ None]).
  - reflexivity.
  - repeat constructor.
  - repeat constructor; intros t [= <-]; by eexists.
Defined.

Lemma detail_rejected_witness :
  ∃ h', toy_detail 0 (inl [mkPlaceHolder 10 ∅ None], inl []) h_empty = Raise DecodeError h' ∧
        hp_registry h' = ∅ ∧ hp_tensors h' = [] ∧ hp_states h' = [].
Proof.
  exists (with_placeholders (λ l, l ++ [mkPlaceHolder 10 ∅ None]) h_empty).
  split; [|done].
  apply (detail_rejected toy_wire toy_detail_placeholders toy_detail_values 0
           (inl [mkPlaceHolder 10 ∅ None]) (inl []) h_empty).
  right. eexists _, _. split; reflexivity.
Defined.

Lemma detail_frame_witness :
  ∃ s h', toy_detail 0 (inl [mkPlaceHolder 10 ∅ None], inr [Some (mkTensor 7 [1]%Z)]) h_ab
            = Ok s h' ∧
          hp_states h' = hp_states h_ab ++ [mkState (OwnerWorker 0) [2]] ∧
          hp_placeholders h' !! 0 = hp_placeholders h_ab !! 0 ∧
          hp_registry h' !! (1, 7%Z) = None.
Proof.
  destruct (detail_frame toy_wire toy_detail_placeholders toy_detail_values 0
              (inl [mkPlaceHolder 10 ∅ None]) (inr [Some (mkTensor 7 [1]%Z)]) h_ab
              [2] _ [(4, mkTensor 7 [1]%Z)] _ eq_refl eq_refl)
    as (s & h' & Hrun & _ & Hst & _ & _ & _ & Hother & _ & Hreg).
  - repeat constructor.
  - repeat constructor; by eexists.
  - exists s, h'. split; [done|]. split; [done|]. split.
    + rewrite Hother; [done|]. set_solver.
    + rewrite Hreg; [done|]. left. lia.
Defined.

Lemma detail_then_simplify_witness :
  ∃ s h',
    toy_detail 0 (inl [mkPlaceHolder 10 ∅ None],
                  inr [Some (mkTensor 7 [1]%Z); Some (mkTensor 8 [2]%Z)]) h_empty
      = Ok s h' ∧
    toy_simplify 1 s h'
      = Ok (inl [mkPlaceHolder 10 ∅ (Some 0)], inr [Some (mkTensor 7 [1]%Z)]) h' ∧
    hp_registry h' !! (0, 8%Z) = Some 1.
Proof.
  destruct (detail_then_simplify toy_wire toy_simplify_placeholders toy_simplify_values
              toy_detail_placeholders toy_detail_values 0 1
              (inl [mkPlaceHolder 10 ∅ None])
              (inr [Some (mkTensor 7 [1]%Z); Some (mkTensor 8 [2]%Z)]) h_empty
              [0] _ [(0, mkTensor 7 [1]%Z); (1, mkTensor 8 [2]%Z)] _
              [mkPlaceHolder 10 ∅ None] eq_refl eq_refl)
    as (s & h' & Hrun & Hsimp & _ & Hreg & _).
  - repeat constructor.
  - repeat constructor.
  - repeat constructor; set_solver.
  - simpl. lia.
  - exists s, h'. split; [done|]. split; [done|].
    destruct (Hreg 1 (1, mkTensor 8 [2]%Z) eq_refl) as (j & o' & Hle & Hj & _ & Hr & _).
    destruct j as [|[|j]]; [lia| |done]. by simplify_eq/=.
Defined.


Lemma get_raises_on_unbound_witness :
  get_ (λ t, Tensor_write t []) 0 h_half
  = Raise AttributeError (with_tensors (λ _, [mkTensor 7 []]) h_half).
Proof.
  apply (get_raises_on_unbound (λ t, Tensor_write t []) 0 (mkState (OwnerWorker 0) [0; 1])
           h_half [mkPlaceHolder 10 ∅ (Some 0)] [0] (mkPlaceHolder 11 ∅ None) []).
  - reflexivity.
  - repeat constructor.
  - reflexivity.
  - reflexivity.
  - reflexivity.
Defined.
